(** * Verification of the netsuite-sdk transport, retry, pagination,
    middleware and account-id code (shallow embedding).

    Numbers of the JavaScript code are modelled exactly: counts and indices
    as [nat] or [Z], delays as rationals [Q] (no floating-point rounding).
    Nondeterminism (the network, [Math.random], the OAuth library's nonce)
    is an explicit oracle argument. *)

From Stdlib Require Import List Bool Arith ZArith QArith Qpower Qminmax Lia Lqa.
From Stdlib Require Import String Ascii.
Import ListNotations.

Open Scope nat_scope.

(* ================================================================== *)
(** ** [withRetry] (src/unnamed/part_009, transport/retry.ts) *)

Module Retry.
Section WithRetry.

(** [St]: whatever state the wrapped operation threads (nonces, sent
    requests, ...); [V]: its value; [E]: the errors it throws. *)
Context {St V E : Type}.

(** [RetryConfig] after [{ ...DEFAULT_RETRY_CONFIG, ...config }]. The
    [maxRetries] field is a non-negative integer. [onRetry] is recorded as
    an event of the trace. *)
Record RetryConfig := {
  maxRetries : nat;
  initialDelay : Q;
  maxDelay : Q;
  backoffFactor : Q;
  shouldRetry : E -> nat -> bool
}.

(** One settled [await fn()]. *)
Inductive attempt_result :=
| AOk (v : V)
| AErr (e : E).

(** Observable events of one [withRetry] run. *)
Inductive event :=
| EInvoke (attempt : nat) (r : attempt_result)  (* fn() called at [attempt] *)
| EOnRetry (e : E) (n : nat)                    (* opts.onRetry?.(error, attempt + 1) *)
| ESleep (d : Q).                               (* setTimeout(resolve, delay + jitter) *)

(** How the returned promise settles. *)
Inductive retry_result :=
| Resolved (v : V)
| Rejected (e : E)
| LoopExited.  (* throw new Error('Retry loop exited unexpectedly') *)

(** [Math.min(opts.initialDelay * Math.pow(opts.backoffFactor, attempt), opts.maxDelay)] *)
Definition delay_of (opts : RetryConfig) (attempt : nat) : Q :=
  Qmin (initialDelay opts * Qpower (backoffFactor opts) (Z.of_nat attempt))
       (maxDelay opts).

(** [delay * 0.25 * (Math.random() * 2 - 1)], [r] the value of [Math.random()]. *)
Definition jitter_of (delay r : Q) : Q := delay * (1 # 4) * (r * 2 - 1).

(** The [for] loop from [attempt] on. [fuel] bounds the iterations; it is
    started at [maxRetries + 1], the number of values [attempt] can take
    under the guard [attempt <= opts.maxRetries], so it never cuts the loop
    short. [rnd attempt] is the [Math.random()] drawn in that iteration. *)
Fixpoint retry_loop (opts : RetryConfig) (fn : St -> attempt_result * St)
    (rnd : nat -> Q) (fuel attempt : nat) (s : St)
    : list event * retry_result * St :=
  match fuel with
  | O => ([], LoopExited, s)
  | S fuel' =>
      if attempt <=? maxRetries opts then
        let '(r, s1) := fn s in
        match r with
        | AOk v => ([EInvoke attempt r], Resolved v, s1)
        | AErr e =>
            let isLastAttempt := Nat.eqb attempt (maxRetries opts) in
            if isLastAttempt || negb (shouldRetry opts e attempt) then
              ([EInvoke attempt r], Rejected e, s1)
            else
              let delay := delay_of opts attempt in
              let jitter := jitter_of delay (rnd attempt) in
              let '(tr, res, s2) := retry_loop opts fn rnd fuel' (S attempt) s1 in
              (EInvoke attempt r :: EOnRetry e (S attempt) :: ESleep (delay + jitter) :: tr,
               res, s2)
        end
      else ([], LoopExited, s)
  end.

Definition withRetry (opts : RetryConfig) (fn : St -> attempt_result * St)
    (rnd : nat -> Q) (s : St) : list event * retry_result * St :=
  retry_loop opts fn rnd (S (maxRetries opts)) 0 s.

(** The results of the invocations of [fn], in order. *)
Fixpoint invocations (tr : list event) : list attempt_result :=
  match tr with
  | [] => []
  | EInvoke _ r :: tr' => r :: invocations tr'
  | _ :: tr' => invocations tr'
  end.

(** The durations handed to [setTimeout], in order. *)
Fixpoint sleeps (tr : list event) : list Q :=
  match tr with
  | [] => []
  | ESleep d :: tr' => d :: sleeps tr'
  | _ :: tr' => sleeps tr'
  end.


End WithRetry.
Arguments RetryConfig : clear implicits.
Arguments attempt_result : clear implicits.
Arguments event : clear implicits.
Arguments retry_result : clear implicits.
End Retry.

(* ================================================================== *)
(** ** [HttpTransport] (src/src/transport/http-transport.ts, oauth.ts,
    types/records.ts [NetSuiteError]) *)

Module Transport.
Import Retry.

Inductive HttpMethod := GET | POST | PUT | PATCH | DELETE.

Definition method_eqb (m1 m2 : HttpMethod) : bool :=
  match m1, m2 with
  | GET, GET | POST, POST | PUT, PUT | PATCH, PATCH | DELETE, DELETE => true
  | _, _ => false
  end.

(** A header value: a literal string, or the [Authorization] value built
    by [oauth.toHeader(oauth.authorize({ url, method }, token))], which
    depends on the url, the method and the nonce drawn by that call. *)
Inductive hval :=
| HLit (s : string)
| HOAuth (url : string) (m : HttpMethod) (nonce : nat).

(** A [Record<string, string>] object: its properties in insertion order. *)
Definition headers := list (string * hval).

(** [o[k] = v]: an existing property keeps its place, a new one is appended. *)
Fixpoint obj_set (k : string) (v : hval) (o : headers) : headers :=
  match o with
  | [] => [(k, v)]
  | (k', v') :: o' =>
      if String.eqb k k' then (k', v) :: o' else (k', v') :: obj_set k v o'
  end.

(** [{ ...o1, ...o2 }] *)
Definition spread (o1 o2 : headers) : headers :=
  fold_left (fun acc kv => obj_set (fst kv) (snd kv) acc) o2 o1.

(** [o[k]] ([None] for [undefined]). *)
Fixpoint obj_get (k : string) (o : headers) : option hval :=
  match o with
  | [] => None
  | (k', v) :: o' => if String.eqb k k' then Some v else obj_get k o'
  end.

(** The signer returned by [createOAuthSigner]. Each call of
    [oauth.authorize] (library oauth-1.0a) draws a fresh nonce; the nonce
    source is modelled as a counter, so the nonces of distinct calls
    differ. [toHeader] yields the single [Authorization] property. *)
Definition sign (url : string) (method : HttpMethod) (nonce : nat)
    : headers * nat :=
  ([("Authorization"%string, HOAuth url method nonce)], S nonce).

(** JavaScript values a request body can hold. *)
Inductive jsval :=
| JUndefined
| JNull
| JBool (b : bool)
| JNum (q : Q)
| JNaN
| JStr (s : string)
| JObj (id : nat).

(** JavaScript truthiness. *)
Definition truthy (v : jsval) : bool :=
  match v with
  | JUndefined | JNull | JNaN => false
  | JBool b => b
  | JNum q => negb (Qeq_bool q 0)
  | JStr s => negb (String.eqb s "")
  | JObj _ => true
  end.

(** [['POST', 'PUT', 'PATCH'].includes(method)] *)
Definition is_body_method (m : HttpMethod) : bool :=
  existsb (method_eqb m) [POST; PUT; PATCH].

(** The [RequestContext] object ([metadata] as its own properties). *)
Record RequestContext := {
  ctx_url : string;
  ctx_method : HttpMethod;
  ctx_headers : headers;
  ctx_body : jsval;
  ctx_metadata : list (string * jsval)
}.

(** The configuration object handed to [axiosInstance.request]. *)
Record AxiosRequest := {
  ax_url : string;
  ax_method : HttpMethod;
  ax_headers : headers;
  ax_data : jsval;
  ax_timeout : Z
}.

(** The parsed error body of a response ([undefined] fields are [None]). *)
Record ErrorBody := {
  eb_detail : option string;
  eb_title : option string;
  eb_message : option string;
  eb_oErrorCode : option string;   (* errorBody['o:errorCode'] *)
  eb_code : option string
}.

Definition empty_body : ErrorBody := Build_ErrorBody None None None None None.

(** What the network does with one request. *)
Inductive net_result :=
| Resp (status : Z) (body : ErrorBody)
| AxiosErr (code : option string) (message : string).

Record NetSuiteError := {
  ns_message : string;
  ns_status : Z;
  ns_code : string
}.

(** [get isRetryable()] *)
Definition isRetryable (e : NetSuiteError) : bool :=
  (500 <=? ns_status e)%Z || String.eqb (ns_code e) "TIMEOUT"
  || String.eqb (ns_code e) "NETWORK_ERROR".

(** [get isAuthError()] *)
Definition isAuthError (e : NetSuiteError) : bool :=
  (ns_status e =? 401)%Z || (ns_status e =? 403)%Z.

(** Errors reaching [withRetry]: a [NetSuiteError] or anything else. *)
Inductive terror :=
| ErrNS (e : NetSuiteError)
| ErrOther.

Record ResponseContext := { rc_status : Z }.

(** Decimal rendering of an integer, as in a template literal. *)
Fixpoint dec_aux (fuel : nat) (n : N) (acc : string) : string :=
  match fuel with
  | O => acc
  | S f =>
      let acc' := String (ascii_of_N (48 + N.modulo n 10)) acc in
      if (N.div n 10 =? 0)%N then acc' else dec_aux f (N.div n 10) acc'
  end.

Definition string_of_N (n : N) : string := dec_aux (S (N.size_nat n)) n "".

Definition string_of_Z (z : Z) : string :=
  if (z <? 0)%Z then ("-" ++ string_of_N (Z.to_N (- z)))%string
  else string_of_N (Z.to_N z).

(** [a ?? b] on optional strings. *)
Definition coalesce (a : option string) (b : string) : string :=
  match a with Some x => x | None => b end.

Record TState := {
  nonce : nat;                 (* state of the nonce source *)
  sent : list AxiosRequest     (* requests handed to axios, in order *)
}.

(** [executeRequest(context, timeout)]; [net n] is what the network does
    with the [n]-th request sent. *)
Definition executeRequest (net : nat -> net_result) (context : RequestContext)
    (timeout : Z) (s : TState) : attempt_result ResponseContext terror * TState :=
  let req := {| ax_url := ctx_url context;
                ax_method := ctx_method context;
                ax_headers := ctx_headers context;
                ax_data := if truthy (ctx_body context)
                              && is_body_method (ctx_method context)
                           then ctx_body context else JUndefined;
                ax_timeout := timeout |} in
  let s' := {| nonce := nonce s; sent := sent s ++ [req] |} in
  match net (List.length (sent s)) with
  | Resp status errorBody =>
      if (status >=? 400)%Z then
        let message :=
          coalesce (eb_detail errorBody)
            (coalesce (eb_title errorBody)
               (coalesce (eb_message errorBody) ("HTTP " ++ string_of_Z status))) in
        let code :=
          coalesce (eb_oErrorCode errorBody)
            (coalesce (eb_code errorBody) ("HTTP_" ++ string_of_Z status)) in
        (AErr (ErrNS {| ns_message := message; ns_status := status; ns_code := code |}), s')
      else (AOk {| rc_status := status |}, s')
  | AxiosErr code msg =>
      if match code with
         | Some c => String.eqb c "ECONNABORTED" || String.eqb c "ERR_CANCELED"
         | None => false
         end
      then (AErr (ErrNS {| ns_message := "Request timed out after " ++ string_of_Z timeout ++ "ms";
                          ns_status := 504; ns_code := "TIMEOUT" |}), s')
      else (AErr (ErrNS {| ns_message := if String.eqb msg "" then "Network error" else msg;
                          ns_status := 0; ns_code := "NETWORK_ERROR" |}), s')
  end%string.

(** The resolved transport configuration, of a transport created without a
    [logger] ([this.config.logger?.debug/info/warn] do nothing). *)
Record ResolvedConfig := {
  cfg_timeout : Z;
  cfg_maxRetries : nat;
  cfg_retryDelay : Q;
  cfg_defaultHeaders : headers
}.

Record RequestOptions := {
  opt_method : option HttpMethod;
  opt_headers : headers;          (* [options.headers]; [{}] when absent *)
  opt_body : jsval;
  opt_timeout : option Z;
  opt_maxRetries : option nat
}.

(** The [shouldRetry] that [request] passes to [withRetry]. *)
Definition transport_shouldRetry (error : terror) (_ : nat) : bool :=
  match error with
  | ErrNS e => isRetryable e
  | ErrOther => true
  end.

(** The state the middleware chain of one attempt runs in: the transport
    state, the one [context] object that every middleware and the final
    [() => this.executeRequest(context, timeout)] share (middlewares mutate
    it in place), and the chain's closure variable [index]. *)
Record CState := {
  cs_tstate : TState;
  cs_context : RequestContext;
  cs_index : nat
}.

Definition TM (A : Type) := CState -> A * CState.

Definition result := attempt_result ResponseContext terror.

(** A registered [Middleware], [async (context, next) => { ... }], as the
    program its body runs: it reads the shared context, assigns to it
    ([context.headers.X = ...], [context.body = ...], ...), awaits
    [next()] any number of times (the settled result, a response or a
    rejection, is what the rest of the body sees), and finally returns a
    response or throws. *)
Inductive Middleware :=
| MwReturn (r : result)
| MwRead (k : RequestContext -> Middleware)
| MwUpdate (f : RequestContext -> RequestContext) (k : Middleware)
| MwNext (k : result -> Middleware).

Definition set_context (c : RequestContext) (s : CState) : CState :=
  {| cs_tstate := cs_tstate s; cs_context := c; cs_index := cs_index s |}.

(** Running a middleware's body, [next] being the chain's [next]. *)
Fixpoint run_middleware (m : Middleware) (next : TM result) : TM result :=
  fun s =>
    match m with
    | MwReturn r => (r, s)
    | MwRead k => run_middleware (k (cs_context s)) next s
    | MwUpdate f k => run_middleware k next (set_context (f (cs_context s)) s)
    | MwNext k => let '(r, s1) := next s in run_middleware (k r) next s1
    end.

Definition bump (s : CState) : CState :=
  {| cs_tstate := cs_tstate s; cs_context := cs_context s; cs_index := S (cs_index s) |}.

(** [next()] of [executeMiddlewareChain] (middleware-chain.ts): as
    [MiddlewareChain.next], over the transport's state. [fuel] stands for
    the number of middlewares still ahead; [index] only grows, so
    [fuel = 0] only happens once [index >= middlewares.length]. *)
Fixpoint chain_next (middlewares : list Middleware) (finalHandler : TM result)
    (fuel : nat) : TM result :=
  fun s =>
    if List.length middlewares <=? cs_index s then finalHandler s
    else match fuel, nth_error middlewares (cs_index s) with
         | S f, Some middleware =>
             run_middleware middleware (chain_next middlewares finalHandler f) (bump s)
         | _, _ => finalHandler s
         end.

Definition executeMiddlewareChain (middlewares : list Middleware)
    (finalHandler : TM result) : TM result :=
  fun s => chain_next middlewares finalHandler (List.length middlewares)
             {| cs_tstate := cs_tstate s; cs_context := cs_context s; cs_index := 0 |}.

(** [() => this.executeRequest(context, timeout)]: it reads the context
    object as the middlewares have left it when it is called. *)
Definition final_handler (net : nat -> net_result) (timeout : Z) : TM result :=
  fun s =>
    let '(r, t) := executeRequest net (cs_context s) timeout (cs_tstate s) in
    (r, {| cs_tstate := t; cs_context := cs_context s; cs_index := cs_index s |}).

(** The function [request] wraps in [withRetry]: one physical attempt,
    [middlewares] being [this.middlewares]. *)
Definition attempt (net : nat -> net_result) (config : ResolvedConfig)
    (middlewares : list Middleware) (url : string) (options : RequestOptions) (s : TState)
    : result * TState :=
  let method := match opt_method options with Some m => m | None => GET end in
  let timeout := match opt_timeout options with Some t => t | None => cfg_timeout config end in
  let '(authHeaders, nonce') := sign url method (nonce s) in
  let hdrs := spread (spread (spread [("Content-Type"%string, HLit "application/json")]
                                     (cfg_defaultHeaders config))
                             authHeaders)
                     (opt_headers options) in
  let context := {| ctx_url := url; ctx_method := method; ctx_headers := hdrs;
                    ctx_body := opt_body options; ctx_metadata := [] |} in
  let '(response, cs) :=
    executeMiddlewareChain middlewares (final_handler net timeout)
      {| cs_tstate := {| nonce := nonce'; sent := sent s |}; cs_context := context;
         cs_index := 0 |} in
  (response, cs_tstate cs).

(** The options [request] passes to [withRetry], merged over the defaults
    ([maxDelay] 30000, [backoffFactor] 2). *)
Definition request_retry_config (config : ResolvedConfig) (options : RequestOptions)
    : RetryConfig terror :=
  {| maxRetries := match opt_maxRetries options with Some n => n | None => cfg_maxRetries config end;
     initialDelay := cfg_retryDelay config;
     maxDelay := 30000;
     backoffFactor := 2;
     shouldRetry := transport_shouldRetry |}.

(** [HttpTransport.request(url, options)] on a transport with
    [this.config = config] and [this.middlewares = middlewares]. *)
Definition request (net : nat -> net_result) (rnd : nat -> Q) (config : ResolvedConfig)
    (middlewares : list Middleware) (url : string) (options : RequestOptions) (s : TState) :=
  withRetry (request_retry_config config options) (attempt net config middlewares url options)
    rnd s.

End Transport.

(* ================================================================== *)
(** ** [SuiteQLClient.query] (src/src/client.ts) *)

Module SuiteQL.
Section Query.

(** [T]: the row type. *)
Context {T : Type}.

(** [maxRows]: a finite number or [Infinity] (the default). *)
Inductive limit_t :=
| Fin (m : Z)
| Infinity.

(** Options after the defaults [pageSize = 1000], [offset = 0],
    [maxRows = Infinity]. *)
Record QueryOptions := {
  pageSize : Z;
  startOffset : Z;
  maxRows : limit_t
}.

Definition default_options : QueryOptions :=
  {| pageSize := 1000; startOffset := 0; maxRows := Infinity |}.

(** [SuiteQLRawResponse]: the fields the loop reads. *)
Record Page := {
  items : list T;
  page_totalResults : Z;
  page_hasMore : bool
}.

(** The loop's variables, plus the [(limit, offset)] of every request
    sent, in order. *)
Record QState := {
  allItems : list T;
  currentOffset : Z;
  totalResults : Z;
  pagesFetched : nat;
  requests : list (Z * Z)
}.

Definition init_state (o : QueryOptions) : QState :=
  {| allItems := []; currentOffset := startOffset o; totalResults := 0;
     pagesFetched := 0; requests := [] |}.

(** [Math.min(pageSize, maxRows - allItems.length)] *)
Definition effective_limit (o : QueryOptions) (n : Z) : Z :=
  match maxRows o with
  | Fin m => Z.min (pageSize o) (m - n)
  | Infinity => pageSize o
  end.

(** [allItems.length >= maxRows] *)
Definition reached (o : QueryOptions) (n : Z) : bool :=
  match maxRows o with
  | Fin m => (m <=? n)%Z
  | Infinity => false
  end.

(** The server: [server k limit offset] is the page answering the [k]-th
    request ([None]: the transport rejects). *)
Definition Server := nat -> Z -> Z -> option Page.

(** How one pass of the loop body ends. *)
Inductive iter_outcome :=
| INoRequest                 (* if (effectiveLimit <= 0) break; *)
| IFail (st : QState)        (* the awaited request rejected *)
| IStop (st : QState)        (* a page was fetched, then break *)
| IContinue (st : QState).   (* a page was fetched, loop again *)

(** One pass of [while (true) { ... }]. *)
Definition query_iter (server : Server) (o : QueryOptions) (st : QState) : iter_outcome :=
  let effectiveLimit := effective_limit o (Z.of_nat (List.length (allItems st))) in
  if (effectiveLimit <=? 0)%Z then INoRequest
  else
    let reqs := requests st ++ [(effectiveLimit, currentOffset st)] in
    match server (pagesFetched st) effectiveLimit (currentOffset st) with
    | None =>
        IFail {| allItems := allItems st; currentOffset := currentOffset st;
                 totalResults := totalResults st; pagesFetched := pagesFetched st;
                 requests := reqs |}
    | Some page =>
        let total := page_totalResults page in
        let all := allItems st ++ items page in
        let n := Z.of_nat (List.length (items page)) in
        let hasMore := page_hasMore page || (currentOffset st + n <? total)%Z in
        let st1 := {| allItems := all; currentOffset := currentOffset st;
                      totalResults := total; pagesFetched := S (pagesFetched st);
                      requests := reqs |} in
        if negb hasMore || reached o (Z.of_nat (List.length all))
           || (Z.of_nat (List.length (items page)) =? 0)%Z
        then IStop st1
        else IContinue {| allItems := all; currentOffset := currentOffset st + n;
                          totalResults := total; pagesFetched := S (pagesFetched st);
                          requests := reqs |}
    end.

(** How the loop ends: [QBreak] after a [break], [QFailed] when a request
    rejects, [QRunning] when [fuel] passes of [continue] are used up (the
    JavaScript loop has no bound). *)
Inductive loop_outcome :=
| QBreak (st : QState)
| QFailed (st : QState)
| QRunning (st : QState).

Fixpoint query_loop (server : Server) (o : QueryOptions) (fuel : nat) (st : QState)
    : loop_outcome :=
  match query_iter server o st with
  | INoRequest => QBreak st
  | IFail st' => QFailed st'
  | IStop st' => QBreak st'
  | IContinue st' =>
      match fuel with
      | O => QRunning st'
      | S f => query_loop server o f st'
      end
  end.

(** [SuiteQLResult] without [duration]. *)
Record QueryResult := {
  res_items : list T;
  res_totalResults : Z;
  res_pagesFetched : nat;
  res_hasMore : bool
}.

Definition to_result (st : QState) : QueryResult :=
  {| res_items := allItems st; res_totalResults := totalResults st;
     res_pagesFetched := pagesFetched st;
     res_hasMore := (Z.of_nat (List.length (allItems st)) <? totalResults st)%Z |}.

(** [query(sql, options)]: the result (or [None] when it rejects or has
    not finished within [fuel]) and the requests sent. *)
Definition query (server : Server) (o : QueryOptions) (fuel : nat)
    : option QueryResult * list (Z * Z) :=
  match query_loop server o fuel (init_state o) with
  | QBreak st => (Some (to_result st), requests st)
  | QFailed st => (None, requests st)
  | QRunning st => (None, requests st)
  end.

End Query.
Arguments QueryOptions : clear implicits.
Arguments Page : clear implicits.
Arguments QState : clear implicits.
Arguments Server : clear implicits.
Arguments QueryResult : clear implicits.
End SuiteQL.

(* ================================================================== *)
(** ** [executeMiddlewareChain] (src/src/transport/middleware-chain.ts) *)

Module MiddlewareChain.
Section Chain.

Context {Ctx Resp : Type}.

(** What a test middleware or handler records. *)
Inductive ev :=
| Enter (name : string)
| Exit (name : string)
| Handler.

(** The state of a chain run: the closure variable [index] and the
    observable log. *)
Record CState := { index : nat; log : list ev }.

Definition M (A : Type) := CState -> A * CState.

(** [(context, next) => Promise<ResponseContext>] *)
Definition Middleware := Ctx -> M Resp -> M Resp.

Definition bump (s : CState) : CState := {| index := S (index s); log := log s |}.

(** [next()]. [fuel] stands for the number of middlewares still ahead;
    middlewares do not touch [index], so [index + fuel >= length] holds
    at every call and [fuel = 0] only happens once [index >= length]. *)
Fixpoint next (middlewares : list Middleware) (context : Ctx)
    (finalHandler : M Resp) (fuel : nat) : M Resp :=
  fun s =>
    if List.length middlewares <=? index s then finalHandler s
    else match fuel, nth_error middlewares (index s) with
         | S f, Some middleware =>
             middleware context (next middlewares context finalHandler f) (bump s)
         | _, _ => finalHandler s
         end.

Definition executeMiddlewareChain (middlewares : list Middleware) (context : Ctx)
    (finalHandler : M Resp) : M Resp :=
  fun s => next middlewares context finalHandler (List.length middlewares)
                {| index := 0; log := log s |}.

Definition record (e : ev) (s : CState) : CState :=
  {| index := index s; log := log s ++ [e] |}.

(** [async (ctx, next) => { log(name + '-enter'); const r = await next();
    log(name + '-exit'); return r; }] *)
Definition logging (name : string) : Middleware :=
  fun _ k s =>
    let '(r, s1) := k (record (Enter name) s) in
    (r, record (Exit name) s1).

(** [async () => { log('H'); return response; }] *)
Definition handler (response : Resp) : M Resp :=
  fun s => (response, record Handler s).

End Chain.
Arguments ev : clear implicits.
End MiddlewareChain.

(* ================================================================== *)
(** ** Account-id normalization (src/src/utils/validation.ts, client.ts,
    types/config.ts [RecordClient], restlets/restlet-client.ts) *)

Module Account.

(** [String.prototype.toLowerCase] on one character. Strings are sequences
    of 8-bit code units, i.e. code points U+0000..U+00FF: ASCII capitals and
    the Latin-1 capitals U+00C0..U+00DE except U+00D7 map 0x20 up, all
    else is unchanged. *)
Definition lower_char (c : ascii) : ascii :=
  let n := nat_of_ascii c in
  if ((65 <=? n) && (n <=? 90)) || ((192 <=? n) && (n <=? 222) && negb (n =? 215))
  then ascii_of_nat (n + 32) else c.

Fixpoint toLowerCase (s : string) : string :=
  match s with
  | EmptyString => EmptyString
  | String c s' => String (lower_char c) (toLowerCase s')
  end.

(** [s.replace(/_/g, '-')] *)
Fixpoint replace_underscores (s : string) : string :=
  match s with
  | EmptyString => EmptyString
  | String c s' =>
      String (if Ascii.eqb c "_"%char then "-"%char else c) (replace_underscores s')
  end.

(** [normalizeAccountId(accountId)] *)
Definition normalizeAccountId (accountId : string) : string :=
  replace_underscores (toLowerCase accountId).

(** [buildSuiteTalkUrl], [buildRestletUrl] *)
Definition buildSuiteTalkUrl (accountId : string) : string :=
  ("https://" ++ normalizeAccountId accountId ++ ".suitetalk.api.netsuite.com")%string.

Definition buildRestletUrl (accountId : string) : string :=
  ("https://" ++ normalizeAccountId accountId ++ ".restlets.api.netsuite.com")%string.

(** The [baseUrl] set by the [SuiteQLClient], [RecordClient] and
    [RestletClient] constructors, each normalizing inline with
    [accountId.toLowerCase().replace(/_/g, '-')]. *)
Definition suiteql_baseUrl (accountId : string) : string :=
  let normalizedId := replace_underscores (toLowerCase accountId) in
  ("https://" ++ normalizedId ++ ".suitetalk.api.netsuite.com/services/rest/query/v1/suiteql")%string.

Definition record_baseUrl (accountId : string) : string :=
  let normalizedId := replace_underscores (toLowerCase accountId) in
  ("https://" ++ normalizedId ++ ".suitetalk.api.netsuite.com/services/rest/record/v1")%string.

Definition restlet_baseUrl (accountId : string) : string :=
  let normalizedId := replace_underscores (toLowerCase accountId) in
  ("https://" ++ normalizedId ++ ".restlets.api.netsuite.com/app/site/hosting/restlet.nl")%string.

End Account.

(* ================================================================== *)
(** ** [SuiteQLClient.queryOne] and [SuiteQLClient.queryPages]
    (src/src/client.ts) *)

Module SuiteQLPages.
Import SuiteQL.
Section Pages.
Context {T : Type}.

(** [queryOne(sql, options)]: [query] with [{ ...options, maxRows: 1 }],
    then [result.items[0] ?? null] (rows are objects, never nullish, so
    [?? null] only replaces a missing first row). [None]: the promise
    rejects (or the loop has not finished within [fuel]); [Some None]:
    [null]. *)
Definition queryOne (server : Server T) (o : QueryOptions) (fuel : nat)
    : option (option T) * list (Z * Z) :=
  let '(r, reqs) := query server {| pageSize := pageSize o; startOffset := startOffset o;
                                    maxRows := Fin 1 |} fuel in
  (match r with Some res => Some (hd_error (res_items res)) | None => None end, reqs).

(** The generator's variables, plus the pages yielded so far, the number
    of pages fetched (which indexes the server's answers, as in [query])
    and the [(limit, offset)] of every request sent. *)
Record PState := {
  yielded : list (list T);
  p_currentOffset : Z;
  totalYielded : Z;
  p_fetched : nat;
  p_requests : list (Z * Z)
}.

Definition pages_init (o : QueryOptions) : PState :=
  {| yielded := []; p_currentOffset := startOffset o; totalYielded := 0;
     p_fetched := 0; p_requests := [] |}.

Inductive piter_outcome :=
| PReturn (ps : PState)      (* return; *)
| PThrow (ps : PState)       (* the awaited request rejected *)
| PContinue (ps : PState).   (* loop again *)

(** One pass of the generator's [while (true) { ... }]. *)
Definition pages_iter (server : Server T) (o : QueryOptions) (ps : PState) : piter_outcome :=
  let effectiveLimit := effective_limit o (totalYielded ps) in
  if (effectiveLimit <=? 0)%Z then PReturn ps
  else
    let reqs := p_requests ps ++ [(effectiveLimit, p_currentOffset ps)] in
    match server (p_fetched ps) effectiveLimit (p_currentOffset ps) with
    | None =>
        PThrow {| yielded := yielded ps; p_currentOffset := p_currentOffset ps;
                  totalYielded := totalYielded ps; p_fetched := p_fetched ps;
                  p_requests := reqs |}
    | Some page =>
        let n := Z.of_nat (List.length (items page)) in
        if (n =? 0)%Z then
          PReturn {| yielded := yielded ps; p_currentOffset := p_currentOffset ps;
                     totalYielded := totalYielded ps; p_fetched := S (p_fetched ps);
                     p_requests := reqs |}
        else
          let ty := (totalYielded ps + n)%Z in
          let hasMore := page_hasMore page
                         || (p_currentOffset ps + n <? page_totalResults page)%Z in
          let ps1 := {| yielded := yielded ps ++ [items page];
                        p_currentOffset := p_currentOffset ps; totalYielded := ty;
                        p_fetched := S (p_fetched ps); p_requests := reqs |} in
          if negb hasMore || reached o ty then PReturn ps1
          else PContinue {| yielded := yielded ps ++ [items page];
                            p_currentOffset := (p_currentOffset ps + n)%Z; totalYielded := ty;
                            p_fetched := S (p_fetched ps); p_requests := reqs |}
    end.

(** How the generator ends, when consumed to the end. *)
Inductive gen_end := GReturn | GThrow | GSuspended.

Fixpoint pages_loop (server : Server T) (o : QueryOptions) (fuel : nat) (ps : PState)
    : gen_end * PState :=
  match pages_iter server o ps with
  | PReturn ps' => (GReturn, ps')
  | PThrow ps' => (GThrow, ps')
  | PContinue ps' =>
      match fuel with
      | O => (GSuspended, ps')
      | S f => pages_loop server o f ps'
      end
  end.

(** [for await (const page of queryPages(sql, options))]: how the
    generator ends, the pages it yields and the requests it sends. *)
Definition queryPages (server : Server T) (o : QueryOptions) (fuel : nat)
    : gen_end * list (list T) * list (Z * Z) :=
  let '(g, ps) := pages_loop server o fuel (pages_init o) in
  (g, yielded ps, p_requests ps).

End Pages.
Arguments PState : clear implicits.
End SuiteQLPages.

(* ================================================================== *)
(** ** [validateConfig] (src/src/utils/validation.ts) *)

Module Validation.
Local Open Scope string_scope.

(** JavaScript values, as [validateConfig(config: unknown)] may receive
    them. Plain objects and arrays carry their own named properties, in
    order, as data properties (the prototype has none of the names read
    below); an array also has its elements. *)
#[warnings="-register-all"]
Inductive jv :=
| VUndefined
| VNull
| VBool (b : bool)
| VNum (q : Q)
| VNaN
| VBigInt (z : Z)
| VStr (s : string)
| VSymbol
| VObject (props : list (string * jv))
| VArray (elems : list jv) (props : list (string * jv))
| VFunction.

Definition typeof (v : jv) : string :=
  match v with
  | VUndefined => "undefined"
  | VNull => "object"
  | VBool _ => "boolean"
  | VNum _ | VNaN => "number"
  | VBigInt _ => "bigint"
  | VStr _ => "string"
  | VSymbol => "symbol"
  | VObject _ | VArray _ _ => "object"
  | VFunction => "function"
  end.

Definition truthy (v : jv) : bool :=
  match v with
  | VUndefined | VNull | VNaN => false
  | VBool b => b
  | VNum q => negb (Qeq_bool q 0)
  | VBigInt z => negb (z =? 0)%Z
  | VStr s => negb (String.eqb s "")
  | VSymbol | VObject _ | VArray _ _ | VFunction => true
  end.

Fixpoint prop_get (k : string) (props : list (string * jv)) : jv :=
  match props with
  | [] => VUndefined
  | (k', v) :: props' => if String.eqb k k' then v else prop_get k props'
  end.

(** [v[k]] for the property names read here (none of them is an array
    index or [length]; a primitive has no such property, and a function
    is rejected before any of its properties is read). *)
Definition get (v : jv) (k : string) : jv :=
  match v with
  | VObject props | VArray _ props => prop_get k props
  | _ => VUndefined
  end.

(** [!v || typeof v !== t] *)
Definition fails (v : jv) (t : string) : bool :=
  negb (truthy v) || negb (String.eqb (typeof v) t).

Definition requiredFields : list string :=
  ["consumerKey"; "consumerSecret"; "tokenKey"; "tokenSecret"; "realm"].

Definition validateConfig (config : jv) : list string :=
  if fails config "object" then ["Config must be a non-null object"]
  else
    let c := config in
    let errors :=
      if fails (get c "auth") "object" then ["auth is required and must be an object"]
      else
        let auth := get c "auth" in
        flat_map (fun field =>
                    if fails (get auth field) "string"
                    then ["auth." ++ field ++ " is required and must be a non-empty string"]
                    else []) requiredFields in
    (errors ++ (if fails (get c "accountId") "string"
               then ["accountId is required and must be a non-empty string"] else []))%list.

End Validation.

(* ================================================================== *)
(** ** [SuiteQLBuilder] and [escapeValue] (src/unnamed/part_004) *)

Module QueryBuilder.

(** [string | number | boolean]; numbers are integers here, for which
    [String(value)] is the decimal rendering. *)
Inductive sqlvalue :=
| SVStr (s : string)
| SVNum (n : Z)
| SVBool (b : bool).

(** [value.replace(/'/g, "''")] *)
Fixpoint escape_quotes (s : string) : string :=
  match s with
  | EmptyString => EmptyString
  | String c s' =>
      if Ascii.eqb c "'"%char then String "'" (String "'" (escape_quotes s'))
      else String c (escape_quotes s')
  end.

Definition escapeValue (value : sqlvalue) : string :=
  match value with
  | SVNum n => Transport.string_of_Z n
  | SVBool b => if b then "'T'" else "'F'"
  | SVStr s => "'" ++ escape_quotes s ++ "'"
  end%string.

(** [Array.prototype.join(sep)] *)
Fixpoint join (sep : string) (l : list string) : string :=
  match l with
  | [] => ""
  | [x] => x
  | x :: l' => x ++ sep ++ join sep l'
  end%string.

Record SuiteQLBuilder := {
  b_select : list string;
  b_from : string;
  b_joins : list string;
  b_where : list string;
  b_groupBy : list string;
  b_orderBy : list string;
  b_having : list string
}.

Definition suiteql : SuiteQLBuilder :=
  {| b_select := []; b_from := ""%string; b_joins := []; b_where := []; b_groupBy := [];
     b_orderBy := []; b_having := [] |}.

Definition set_select b v := {| b_select := v; b_from := b_from b; b_joins := b_joins b;
  b_where := b_where b; b_groupBy := b_groupBy b; b_orderBy := b_orderBy b; b_having := b_having b |}.
Definition set_from b v := {| b_select := b_select b; b_from := v; b_joins := b_joins b;
  b_where := b_where b; b_groupBy := b_groupBy b; b_orderBy := b_orderBy b; b_having := b_having b |}.
Definition set_joins b v := {| b_select := b_select b; b_from := b_from b; b_joins := v;
  b_where := b_where b; b_groupBy := b_groupBy b; b_orderBy := b_orderBy b; b_having := b_having b |}.
Definition set_where b v := {| b_select := b_select b; b_from := b_from b; b_joins := b_joins b;
  b_where := v; b_groupBy := b_groupBy b; b_orderBy := b_orderBy b; b_having := b_having b |}.
Definition set_groupBy b v := {| b_select := b_select b; b_from := b_from b; b_joins := b_joins b;
  b_where := b_where b; b_groupBy := v; b_orderBy := b_orderBy b; b_having := b_having b |}.
Definition set_orderBy b v := {| b_select := b_select b; b_from := b_from b; b_joins := b_joins b;
  b_where := b_where b; b_groupBy := b_groupBy b; b_orderBy := v; b_having := b_having b |}.
Definition set_having b v := {| b_select := b_select b; b_from := b_from b; b_joins := b_joins b;
  b_where := b_where b; b_groupBy := b_groupBy b; b_orderBy := b_orderBy b; b_having := v |}.

Inductive JoinType := INNER | LEFT | RIGHT.

Definition join_type_name (t : JoinType) : string :=
  match t with INNER => "INNER" | LEFT => "LEFT" | RIGHT => "RIGHT" end%string.

Inductive Direction := ASC | DESC.

Definition direction_name (d : Direction) : string :=
  match d with ASC => "ASC" | DESC => "DESC" end%string.

(** The methods; each mutates the builder and returns it. *)
Definition select (columns : list string) (b : SuiteQLBuilder) :=
  set_select b (b_select b ++ columns).

(** [alias ? `${table} ${alias}` : table] ([None]: no alias given). *)
Definition from (table : string) (alias : option string) (b : SuiteQLBuilder) :=
  set_from b (match alias with
              | Some a => if String.eqb a "" then table else (table ++ " " ++ a)%string
              | None => table
              end).

Definition join_ (table condition : string) (type : JoinType) (b : SuiteQLBuilder) :=
  set_joins b (b_joins b ++ [join_type_name type ++ " JOIN " ++ table ++ " ON " ++ condition]%string).

Definition leftJoin (table condition : string) (b : SuiteQLBuilder) := join_ table condition LEFT b.
Definition rightJoin (table condition : string) (b : SuiteQLBuilder) := join_ table condition RIGHT b.

Definition where_ (condition : string) (b : SuiteQLBuilder) :=
  set_where b (b_where b ++ [condition]).

Definition whereEquals (column : string) (value : sqlvalue) (b : SuiteQLBuilder) :=
  set_where b (b_where b ++ [column ++ " = " ++ escapeValue value]%string).

Definition whereNotEquals (column : string) (value : sqlvalue) (b : SuiteQLBuilder) :=
  set_where b (b_where b ++ [column ++ " != " ++ escapeValue value]%string).

Definition whereIn (column : string) (values : list sqlvalue) (b : SuiteQLBuilder) :=
  set_where b (b_where b ++ [column ++ " IN (" ++ join ", " (map escapeValue values) ++ ")"]%string).

Definition whereNull (column : string) (b : SuiteQLBuilder) :=
  set_where b (b_where b ++ [column ++ " IS NULL"]%string).

Definition whereNotNull (column : string) (b : SuiteQLBuilder) :=
  set_where b (b_where b ++ [column ++ " IS NOT NULL"]%string).

Definition whereBetween (column : string) (start end_ : sqlvalue) (b : SuiteQLBuilder) :=
  set_where b (b_where b ++ [column ++ " BETWEEN " ++ escapeValue start ++ " AND "
                              ++ escapeValue end_]%string).

Definition whereLike (column pattern : string) (b : SuiteQLBuilder) :=
  set_where b (b_where b ++ [column ++ " LIKE " ++ escapeValue (SVStr pattern)]%string).

Definition groupBy (columns : list string) (b : SuiteQLBuilder) :=
  set_groupBy b (b_groupBy b ++ columns).

Definition having (condition : string) (b : SuiteQLBuilder) :=
  set_having b (b_having b ++ [condition]).

Definition orderBy (column : string) (direction : Direction) (b : SuiteQLBuilder) :=
  set_orderBy b (b_orderBy b ++ [column ++ " " ++ direction_name direction]%string).

(** [build()]: [inl message] when it throws. *)
Definition build (b : SuiteQLBuilder) : string + string :=
  if (List.length (b_select b) =? 0)%nat then inl "SuiteQLBuilder: SELECT clause is required"%string
  else if String.eqb (b_from b) "" then inl "SuiteQLBuilder: FROM clause is required"%string
  else
    let parts := ["SELECT " ++ join ", " (b_select b); "FROM " ++ b_from b]%string in
    let parts := if (0 <? List.length (b_joins b))%nat then parts ++ [join " " (b_joins b)] else parts in
    let parts := if (0 <? List.length (b_where b))%nat
                 then parts ++ ["WHERE " ++ join " AND " (b_where b)]%string else parts in
    let parts := if (0 <? List.length (b_groupBy b))%nat
                 then parts ++ ["GROUP BY " ++ join ", " (b_groupBy b)]%string else parts in
    let parts := if (0 <? List.length (b_having b))%nat
                 then parts ++ ["HAVING " ++ join " AND " (b_having b)]%string else parts in
    let parts := if (0 <? List.length (b_orderBy b))%nat
                 then parts ++ ["ORDER BY " ++ join ", " (b_orderBy b)]%string else parts in
    inr (join " " parts).

End QueryBuilder.

(* ================================================================== *)
(** ** [ResponseCache] and [RateLimiter] (src/src/utils/response-cache.ts) *)

Module Cache.
Section Cache.

Context {D : Type}.

Record CacheEntry := { data : D; expiresAt : Q }.

(** The [Map]: its entries in insertion order. [now] is [Date.now()] at
    the call. *)
Definition ResponseCache := list (string * CacheEntry).

Fixpoint map_get (k : string) (m : ResponseCache) : option CacheEntry :=
  match m with
  | [] => None
  | (k', e) :: m' => if String.eqb k k' then Some e else map_get k m'
  end.

(** [Map.prototype.set]: an existing key keeps its place. *)
Fixpoint map_set (k : string) (e : CacheEntry) (m : ResponseCache) : ResponseCache :=
  match m with
  | [] => [(k, e)]
  | (k', e') :: m' => if String.eqb k k' then (k', e) :: m' else (k', e') :: map_set k e m'
  end.

(** [Map.prototype.delete]: whether the key was there, and the map. *)
Fixpoint map_delete (k : string) (m : ResponseCache) : bool * ResponseCache :=
  match m with
  | [] => (false, [])
  | (k', e') :: m' =>
      if String.eqb k k' then (true, m')
      else let '(b, m'') := map_delete k m' in (b, (k', e') :: m'')
  end.

Definition get (key : string) (now : Q) (cache : ResponseCache) : option D * ResponseCache :=
  match map_get key cache with
  | None => (None, cache)
  | Some entry =>
      (* [Date.now() > entry.expiresAt] *)
      if negb (Qle_bool now (expiresAt entry)) then (None, snd (map_delete key cache))
      else (Some (data entry), cache)
  end.

Definition set (key : string) (d : D) (ttlSeconds : Q) (now : Q) (cache : ResponseCache)
    : ResponseCache :=
  map_set key {| data := d; expiresAt := now + ttlSeconds * 1000 |} cache.

Definition delete (key : string) (cache : ResponseCache) : bool * ResponseCache :=
  map_delete key cache.

Definition clear (cache : ResponseCache) : ResponseCache := [].

Definition size (cache : ResponseCache) : nat := List.length cache.

End Cache.
Arguments ResponseCache : clear implicits.
End Cache.

Module RateLimit.

Record RateLimiter := {
  timestamps : list Z;
  maxRequests : Z;
  windowMs : Z
}.

(** [new RateLimiter(maxRequests = 100, windowMs = 60_000)] *)
Definition make (maxRequests windowMs : option Z) : RateLimiter :=
  {| timestamps := [];
     maxRequests := match maxRequests with Some m => m | None => 100 end;
     windowMs := match windowMs with Some w => w | None => 60000 end |}%Z.

(** The [while] loop of [pruneExpired]: [shift] while the oldest is at or
    before the cutoff. *)
Fixpoint drop_expired (cutoff : Z) (ts : list Z) : list Z :=
  match ts with
  | [] => []
  | t :: ts' => if (t <=? cutoff)%Z then drop_expired cutoff ts' else ts
  end.

Definition pruneExpired (now : Z) (rl : RateLimiter) : RateLimiter :=
  {| timestamps := drop_expired (now - windowMs rl) (timestamps rl);
     maxRequests := maxRequests rl; windowMs := windowMs rl |}.

Definition canMakeRequest (now : Z) (rl : RateLimiter) : bool * RateLimiter :=
  let rl1 := pruneExpired now rl in
  ((Z.of_nat (List.length (timestamps rl1)) <? maxRequests rl1)%Z, rl1).

Definition recordRequest (now : Z) (rl : RateLimiter) : RateLimiter :=
  let rl1 := pruneExpired now rl in
  {| timestamps := timestamps rl1 ++ [now]; maxRequests := maxRequests rl1;
     windowMs := windowMs rl1 |}.

Definition getRemainingRequests (now : Z) (rl : RateLimiter) : Z * RateLimiter :=
  let rl1 := pruneExpired now rl in
  (Z.max 0 (maxRequests rl1 - Z.of_nat (List.length (timestamps rl1))), rl1).

(** [None] is [NaN]: [timestamps[0]] is [undefined] when the list is empty. *)
Definition getTimeUntilNextSlot (now : Z) (rl : RateLimiter) : option Z * RateLimiter :=
  let rl1 := pruneExpired now rl in
  if (Z.of_nat (List.length (timestamps rl1)) <? maxRequests rl1)%Z then (Some 0%Z, rl1)
  else match timestamps rl1 with
       | oldest :: _ => (Some (Z.max 0 (oldest + windowMs rl1 - now)), rl1)
       | [] => (None, rl1)
       end.

End RateLimit.

(* ================================================================== *)
(** ** [URLSearchParams], [RestletClient.call] and [RecordClient.list]
    (src/src/restlets/restlet-client.ts, src/src/types/config.ts) *)

Module SearchParams.

(** The list of name-value pairs. *)
Definition params := list (string * string).

(** [URLSearchParams.prototype.set(name, value)]: the first pair with that
    name gets the value and the others are removed; otherwise the pair is
    appended. *)
Fixpoint usp_set (name value : string) (l : params) : params :=
  match l with
  | [] => [(name, value)]
  | (n, v) :: l' =>
      if String.eqb n name
      then (n, value) :: filter (fun p => negb (String.eqb (fst p) name)) l'
      else (n, v) :: usp_set name value l'
  end.

(** [searchParams.get(name)] *)
Fixpoint usp_get (name : string) (l : params) : option string :=
  match l with
  | [] => None
  | (n, v) :: l' => if String.eqb n name then Some v else usp_get name l'
  end.

Definition hex_digit (n : nat) : ascii :=
  if n <? 10 then ascii_of_nat (48 + n) else ascii_of_nat (55 + n).

(** One UTF-8 byte under the application/x-www-form-urlencoded
    percent-encode set: ASCII alphanumerics and [*-._] stay, the others
    become [%XX]. *)
Definition encode_byte (b : nat) : string :=
  if ((48 <=? b) && (b <=? 57)) || ((65 <=? b) && (b <=? 90)) || ((97 <=? b) && (b <=? 122))
     || (b =? 42) || (b =? 45) || (b =? 46) || (b =? 95)
  then String (ascii_of_nat b) EmptyString
  else String "%" (String (hex_digit (b / 16)) (String (hex_digit (b mod 16)) EmptyString)).

(** One code point U+0000..U+00FF: a space is [+], the others are
    encoded through their UTF-8 bytes. *)
Definition encode_char (c : ascii) : string :=
  let n := nat_of_ascii c in
  if n =? 32 then "+"%string
  else if n <? 128 then encode_byte n
  else (encode_byte (192 + n / 64) ++ encode_byte (128 + n mod 64))%string.

Fixpoint form_encode (s : string) : string :=
  match s with
  | EmptyString => EmptyString
  | String c s' => (encode_char c ++ form_encode s')%string
  end.

(** [URLSearchParams.prototype.toString()] *)
Definition serialize (l : params) : string :=
  QueryBuilder.join "&" (map (fun p => form_encode (fst p) ++ "=" ++ form_encode (snd p))%string l).

(** [string | number | boolean] values; numbers are integers. *)
Inductive prim :=
| PStr (s : string)
| PNum (n : Z)
| PBool (b : bool).

(** [String(value)] *)
Definition String_ (v : prim) : string :=
  match v with
  | PStr s => s
  | PNum n => Transport.string_of_Z n
  | PBool b => if b then "true" else "false"
  end%string.

(** The URL [RestletClient.call] requests; [params] lists
    [Object.entries(restlet.params)] ([None]: no [params]). *)
Definition restlet_params (script deploy : prim) (restletParams : option (list (string * prim)))
    : params :=
  let searchParams := [("script"%string, String_ script); ("deploy"%string, String_ deploy)] in
  match restletParams with
  | Some entries =>
      fold_left (fun acc kv => usp_set (fst kv) (String_ (snd kv)) acc) entries searchParams
  | None => searchParams
  end.

Definition restlet_url (accountId : string) (script deploy : prim)
    (restletParams : option (list (string * prim))) : string :=
  (Account.restlet_baseUrl accountId ++ "?" ++ serialize (restlet_params script deploy restletParams))%string.

(** [RestletClient.call(restlet, options)]. *)
Definition call (net : nat -> Transport.net_result) (rnd : nat -> Q)
    (config : Transport.ResolvedConfig) (middlewares : list Transport.Middleware)
    (accountId : string) (script deploy : prim)
    (restletParams : option (list (string * prim))) (options : Transport.RequestOptions)
    (s : Transport.TState) :=
  Transport.request net rnd config middlewares (restlet_url accountId script deploy restletParams)
    options s.

(** [RecordListOptions]; [query] lists [Object.entries(options.query)]. *)
Record RecordListOptions := {
  l_limit : option Z;
  l_offset : option Z;
  l_fields : option (list string);
  l_expandSubResources : option bool;
  l_query : option (list (string * string))
}.

Definition list_params (options : RecordListOptions) : params :=
  let p := [] in
  let p := match l_limit options with
           | Some n => usp_set "limit"%string (Transport.string_of_Z n) p | None => p end in
  let p := match l_offset options with
           | Some n => usp_set "offset"%string (Transport.string_of_Z n) p | None => p end in
  let p := match l_fields options with
           | Some ((_ :: _) as fs) => usp_set "fields"%string (QueryBuilder.join ","%string fs) p
           | _ => p end in
  let p := match l_expandSubResources options with
           | Some true => usp_set "expandSubResources"%string "true"%string p | _ => p end in
  match l_query options with
  | Some entries => fold_left (fun acc kv => usp_set (fst kv) (snd kv) acc) entries p
  | None => p
  end.

(** The URL [RecordClient.list(recordType, options)] requests. *)
Definition list_url (accountId recordType : string) (options : RecordListOptions) : string :=
  let qs := serialize (list_params options) in
  (Account.record_baseUrl accountId ++ "/" ++ recordType
   ++ (if String.eqb qs "" then "" else "?" ++ qs))%string.

End SearchParams.

(* ================================================================== *)
(** * Properties *)

Module RetryFacts.
Import Retry.
Section Facts.
Context {St V E : Type}.
Variables (opts : RetryConfig E) (fn : St -> attempt_result V E * St) (rnd : nat -> Q).






(** The [j]-th sleep of a loop started at [attempt] comes right after
    the invocation at attempt index [attempt + j] and its [onRetry]; it
    is the delay of that index plus the jitter drawn there. *)
Lemma retry_loop_sleep_at fuel : forall attempt s tr res s' j d,
  retry_loop opts fn rnd fuel attempt s = (tr, res, s') ->
  nth_error (sleeps tr) j = Some d ->
  attempt + j < maxRetries opts /\
  (exists pre post r e,
     tr = pre ++ EInvoke (attempt + j) r :: EOnRetry e (S (attempt + j)) :: ESleep d :: post) /\
  d = (delay_of opts (attempt + j) + jitter_of (delay_of opts (attempt + j)) (rnd (attempt + j)))%Q.
Proof.
  induction fuel as [|fuel IH]; intros attempt s tr res s' j d Hrun Hj; simpl in Hrun.
  - injection Hrun as <- <- <-. destruct j; discriminate.
  - destruct (Nat.leb_spec attempt (maxRetries opts)) as [Hle|Hgt].
    2:{ injection Hrun as <- <- <-. destruct j; discriminate. }
    destruct (fn s) as [[v|e] s1].
    + injection Hrun as <- <- <-. destruct j; discriminate.
    + destruct (Nat.eqb_spec attempt (maxRetries opts)) as [Heq|Hne]; simpl in Hrun.
      * injection Hrun as <- <- <-. destruct j; discriminate.
      * destruct (negb (shouldRetry opts e attempt)).
        -- injection Hrun as <- <- <-. destruct j; discriminate.
        -- destruct (retry_loop opts fn rnd fuel (S attempt) s1) as [[tr' res'] s2] eqn:Hrec.
           injection Hrun as <- <- <-. simpl in Hj.
           destruct j as [|j].
           ++ injection Hj as <-. rewrite Nat.add_0_r. split; [lia|]. split; [|reflexivity].
              exists [], tr', (AErr e), e. reflexivity.
           ++ destruct (IH _ _ _ _ _ _ _ Hrec Hj) as (Hlt & (pre & post & r & e' & Htr) & Hd).
              rewrite <- Nat.add_succ_comm. split; [exact Hlt|]. split; [|exact Hd].
              exists (EInvoke attempt (AErr e) :: EOnRetry e (S attempt)
                        :: ESleep (delay_of opts attempt + jitter_of (delay_of opts attempt)
                                                             (rnd attempt))%Q :: pre),
                     post, r, e'.
              rewrite Htr. reflexivity.
Qed.

End Facts.



End RetryFacts.

Module BackoffFacts.
Import Retry RetryFacts.

Lemma delay_of_bounds {E : Type} (opts : RetryConfig E) (k : nat) :
  (0 <= initialDelay opts)%Q -> (0 <= maxDelay opts)%Q -> (0 <= backoffFactor opts)%Q ->
  (0 <= delay_of opts k <= maxDelay opts)%Q.
Proof.
  intros Hd0 Hdm Hb. unfold delay_of. split.
  - apply Q.min_glb; [|exact Hdm].
    apply Qmult_le_0_compat; [exact Hd0|]. apply Qpower_0_le. exact Hb.
  - apply Q.le_min_r.
Qed.

Lemma jittered_bounds (D M r : Q) :
  (0 <= D <= M)%Q -> (0 <= r < 1)%Q ->
  (0 <= D + jitter_of D r <= M * (5 # 4))%Q.
Proof.
  intros [HD HM] [Hr0 Hr1]. unfold jitter_of. split; nra.
Qed.

End BackoffFacts.

Module BackoffClaims.
Import Retry RetryFacts BackoffFacts.

(** C6 (amended): with [initialDelay >= 0], [maxDelay >= 0],
    [backoffFactor >= 0] and [Math.random()] in [[0, 1)], the [k]-th sleep
    of [withRetry] (0-based) comes right after the failed invocation at
    attempt index [k < maxRetries] and its [onRetry(error, k + 1)]; it
    sleeps [delay + jitter] with pre-jitter delay
    [min(d0 * b^k, dmax)] and the jitter drawn at index [k], and that
    duration lies in [[0, dmax * 1.25]]. *)
Theorem withRetry_sleep_bounds {St V E : Type} (opts : RetryConfig E)
    (fn : St -> attempt_result V E * St) (rnd : nat -> Q) (s : St)
    (Hd0 : (0 <= initialDelay opts)%Q) (Hdm : (0 <= maxDelay opts)%Q)
    (Hb : (0 <= backoffFactor opts)%Q)
    (Hrnd : forall k, (0 <= rnd k < 1)%Q) :
  let tr := fst (fst (withRetry opts fn rnd s)) in
  forall k d, nth_error (sleeps tr) k = Some d ->
  k < maxRetries opts /\
  (exists pre post r e, tr = pre ++ EInvoke k r :: EOnRetry e (S k) :: ESleep d :: post) /\
  (let delay := Qmin (initialDelay opts * Qpower (backoffFactor opts) (Z.of_nat k))
                     (maxDelay opts) in
   d = delay + jitter_of delay (rnd k))%Q /\
  (0 <= d <= maxDelay opts * (5 # 4))%Q.
Proof.
  intros tr k d Hk. unfold tr, withRetry in Hk |- *.
  destruct (retry_loop opts fn rnd (S (maxRetries opts)) 0 s) as [[tr0 res] s'] eqn:Hrun.
  simpl in Hk |- *.
  destruct (retry_loop_sleep_at opts fn rnd _ _ _ _ _ _ _ _ Hrun Hk) as (Hlt & Hpre & Hd).
  simpl in Hlt, Hpre, Hd.
  split; [exact Hlt|]. split; [exact Hpre|]. split; [exact Hd|].
  rewrite Hd. apply jittered_bounds; [apply delay_of_bounds; assumption | apply Hrnd].
Qed.

(** The defaults of [withRetry] with an operation that always fails. *)
Definition default_retry : RetryConfig unit :=
  {| maxRetries := 3; initialDelay := 1000; maxDelay := 30000;
     backoffFactor := 2; shouldRetry := fun _ _ => true |}.

Definition neg_factor_config : RetryConfig unit :=
  {| maxRetries := 3; initialDelay := 1000; maxDelay := 30000;
     backoffFactor := -2; shouldRetry := fun _ _ => true |}.

(** C6 counterexample: with [initialDelay = 1000], [maxDelay = 30000] and
    [backoffFactor = -2] (every attempt failing and retryable,
    [Math.random() = 0.5]), the second sleep is [-2000]: the code does not
    clamp the delay at zero. *)
Lemma withRetry_negative_sleep :
  In (ESleep (-16000 # 8))
     (fst (fst (withRetry (St := unit) (V := unit) neg_factor_config
                          (fun s => (AErr tt, s)) (fun _ => 1 # 2) tt))) /\
  (-16000 # 8 < 0)%Q.
Proof.
  split.
  - vm_compute. right. right. right. right. right. left. reflexivity.
  - reflexivity.
Qed.

(** Witness of [withRetry_sleep_bounds] at the default configuration:
    the second sleep (after attempt 1, [Math.random() = 0.5]) is 2000. *)
Lemma withRetry_sleep_bounds_witness :
  nth_error (sleeps (fst (fst (withRetry (St := unit) (V := unit) default_retry
                                         (fun s => (AErr tt, s)) (fun _ => 1 # 2) tt))))
            1 = Some (16000 # 8) /\
  1 < 3 /\ (16000 # 8 = Qmin (1000 * Qpower 2 (Z.of_nat 1)) 30000
                        + jitter_of (Qmin (1000 * Qpower 2 (Z.of_nat 1)) 30000) (1 # 2))%Q.
Proof.
  assert (Hs : nth_error (sleeps (fst (fst (withRetry (St := unit) (V := unit) default_retry
                                         (fun s => (AErr tt, s)) (fun _ => 1 # 2) tt))))
                         1 = Some (16000 # 8)) by (vm_compute; reflexivity).
  pose proof (withRetry_sleep_bounds (St := unit) (V := unit) default_retry
                (fun s => (AErr tt, s)) (fun _ => 1 # 2) tt
                ltac:(vm_compute; discriminate) ltac:(vm_compute; discriminate)
                ltac:(vm_compute; discriminate)
                ltac:(intros k; split; vm_compute; [discriminate | reflexivity])
                1 _ Hs) as (H1 & _ & H3 & _).
  split; [exact Hs|]. split; [exact H1|]. exact H3.
Defined.

End BackoffClaims.

Module TransportFacts.
Import Retry Transport.

Section Invariant.
Context {St V E : Type}.
Variables (opts : RetryConfig E) (fn : St -> attempt_result V E * St) (rnd : nat -> Q).

(** A property of the state indexed by the number of invocations so far,
    preserved by each invocation of [fn], holds at the end of the loop. *)
Lemma retry_loop_invariant (Inv : nat -> St -> Prop) :
  (forall n s0, Inv n s0 -> Inv (S n) (snd (fn s0))) ->
  forall fuel attempt s tr res s' n,
  retry_loop opts fn rnd fuel attempt s = (tr, res, s') ->
  Inv n s -> Inv (n + List.length (invocations tr)) s'.
Proof.
  intros Hstep fuel. induction fuel as [|fuel IH];
    intros attempt s tr res s' n Hrun Hinv; simpl in Hrun.
  - injection Hrun as <- <- <-. simpl. now rewrite Nat.add_0_r.
  - destruct (attempt <=? maxRetries opts).
    2:{ injection Hrun as <- <- <-. simpl. now rewrite Nat.add_0_r. }
    pose proof (Hstep n s Hinv) as Hs1.
    destruct (fn s) as [[v|e] s1]; simpl in Hs1.
    + injection Hrun as <- <- <-. simpl. now rewrite Nat.add_1_r.
    + destruct (_ || _).
      * injection Hrun as <- <- <-. simpl. now rewrite Nat.add_1_r.
      * destruct (retry_loop opts fn rnd fuel (S attempt) s1) as [[tr' res'] s2] eqn:Hrec.
        injection Hrun as <- <- <-. simpl.
        rewrite <- Nat.add_succ_comm. exact (IH _ _ _ _ _ _ Hrec Hs1).
Qed.

End Invariant.

Lemma obj_get_set k k' v o :
  obj_get k (obj_set k' v o) = if String.eqb k k' then Some v else obj_get k o.
Proof.
  induction o as [|[k0 v0] o IH]; simpl.
  - reflexivity.
  - destruct (String.eqb_spec k' k0) as [<-|Hne]; simpl.
    + destruct (String.eqb k k'); reflexivity.
    + rewrite IH.
      destruct (String.eqb k k0) eqn:E0, (String.eqb k k') eqn:E1; try reflexivity.
      apply String.eqb_eq in E0, E1. congruence.
Qed.

Lemma obj_get_absent k o : ~ In k (map fst o) -> obj_get k o = None.
Proof.
  induction o as [|[k0 v0] o IH]; simpl; intros Hk; [reflexivity|].
  destruct (String.eqb_spec k k0) as [->|Hne]; [tauto|].
  apply IH. tauto.
Qed.

(** A property of [{ ...o1, ...o2 }] wins over one of [o1] ([o2] an
    object, so its keys are distinct). *)
Lemma obj_get_spread k o1 o2 :
  NoDup (map fst o2) ->
  obj_get k (spread o1 o2) =
  match obj_get k o2 with Some v => Some v | None => obj_get k o1 end.
Proof.
  unfold spread. revert o1.
  induction o2 as [|[k2 v2] o2 IH]; intros o1 Hnd; simpl in *.
  - reflexivity.
  - inversion Hnd as [|? ? Hk2 Hnd']; subst.
    rewrite (IH _ Hnd'), obj_get_set.
    destruct (String.eqb_spec k k2) as [->|Hne].
    + now rewrite (obj_get_absent k2 o2 Hk2).
    + destruct (obj_get k o2); reflexivity.
Qed.

Definition request_method (options : RequestOptions) : HttpMethod :=
  match opt_method options with Some m => m | None => GET end.

(** The request [executeRequest] hands to axios for [context]. *)
Definition axios_request (context : RequestContext) (timeout : Z) : AxiosRequest :=
  {| ax_url := ctx_url context;
     ax_method := ctx_method context;
     ax_headers := ctx_headers context;
     ax_data := if truthy (ctx_body context) && is_body_method (ctx_method context)
                then ctx_body context else JUndefined;
     ax_timeout := timeout |}.

(** [executeRequest] sends one request and draws no nonce, whatever the
    network answers. *)
Lemma executeRequest_state net context timeout t :
  snd (executeRequest net context timeout t) =
  {| nonce := nonce t; sent := sent t ++ [axios_request context timeout] |}.
Proof.
  unfold executeRequest.
  destruct (net (List.length (sent t))) as [st b|c m].
  - destruct (st >=? 400)%Z; reflexivity.
  - destruct (match c with Some c0 => _ | None => false end); reflexivity.
Qed.

(** A property of the transport state kept by every request sent is kept
    by a middleware's body and by the whole chain: a middleware only
    reads and assigns to the context and calls [next]. *)
Section Chain.
Variable (I : TState -> Prop).

Lemma run_middleware_inv (next : TM result) :
  (forall cs, I (cs_tstate cs) -> I (cs_tstate (snd (next cs)))) ->
  forall m cs, I (cs_tstate cs) -> I (cs_tstate (snd (run_middleware m next cs))).
Proof.
  intros Hnext m. induction m as [r|k IH|f k IH|k IH]; intros cs Hcs; simpl.
  - exact Hcs.
  - apply IH. exact Hcs.
  - apply IH. exact Hcs.
  - pose proof (Hnext cs Hcs) as H1. destruct (next cs) as [r s1]. apply IH. exact H1.
Qed.

Lemma chain_next_inv middlewares finalHandler :
  (forall cs, I (cs_tstate cs) -> I (cs_tstate (snd (finalHandler cs)))) ->
  forall fuel cs, I (cs_tstate cs) ->
  I (cs_tstate (snd (chain_next middlewares finalHandler fuel cs))).
Proof.
  intros Hf fuel. induction fuel as [|fuel IH]; intros cs Hcs; simpl.
  - destruct (_ <=? _); try destruct (nth_error middlewares (cs_index cs)); apply Hf; exact Hcs.
  - destruct (_ <=? _); [apply Hf; exact Hcs|].
    destruct (nth_error middlewares (cs_index cs)) as [m|]; [|apply Hf; exact Hcs].
    apply (run_middleware_inv _ IH m (bump cs)). exact Hcs.
Qed.

Lemma final_handler_inv net timeout :
  (forall context timeout' t, I t -> I (snd (executeRequest net context timeout' t))) ->
  forall cs, I (cs_tstate cs) -> I (cs_tstate (snd (final_handler net timeout cs))).
Proof.
  intros Hexec cs Hcs. unfold final_handler.
  pose proof (Hexec (cs_context cs) timeout _ Hcs) as H.
  destruct (executeRequest net (cs_context cs) timeout (cs_tstate cs)) as [r t]. exact H.
Qed.

(** The same for one attempt: [I] holds once the attempt has signed. *)
Lemma attempt_inv net config middlewares url options s :
  (forall context timeout t, I t -> I (snd (executeRequest net context timeout t))) ->
  I {| nonce := S (nonce s); sent := sent s |} ->
  I (snd (attempt net config middlewares url options s)).
Proof.
  intros Hexec H0. unfold attempt, executeMiddlewareChain. simpl.
  match goal with
  | |- context [chain_next ?m (final_handler ?nt ?tm) ?n ?c] =>
      pose proof (chain_next_inv m (final_handler nt tm) (final_handler_inv nt tm Hexec) n c H0)
        as Hc;
      destruct (chain_next m (final_handler nt tm) n c) as [r cs]
  end.
  exact Hc.
Qed.

End Chain.


(** What a request carries as its data: nothing, or a truthy value sent
    with POST, PUT or PATCH. *)
Definition body_ok (req : AxiosRequest) : Prop :=
  ax_data req = JUndefined \/
  (truthy (ax_data req) = true /\ is_body_method (ax_method req) = true).

Lemma axios_request_body_ok context timeout : body_ok (axios_request context timeout).
Proof.
  unfold body_ok, axios_request; simpl.
  destruct (truthy (ctx_body context)) eqn:Ht, (is_body_method (ctx_method context)) eqn:Hm;
    simpl; auto.
Qed.

(** Whatever middlewares are registered, an attempt only appends
    requests, each of them [body_ok]. *)
Lemma attempt_sent_body_ok net config middlewares url options s :
  exists l, sent (snd (attempt net config middlewares url options s)) = sent s ++ l /\
            Forall body_ok l.
Proof.
  apply (attempt_inv (fun t => exists l, sent t = sent s ++ l /\ Forall body_ok l)).
  - intros context timeout t (l & Hl & Hok). rewrite executeRequest_state. simpl.
    exists (l ++ [axios_request context timeout]). split.
    + rewrite Hl, app_assoc. reflexivity.
    + apply Forall_app. split; [exact Hok|]. constructor; [apply axios_request_body_ok|constructor].
  - exists []. split; [simpl; now rewrite app_nil_r | constructor].
Qed.

(** The request an attempt without middleware hands to axios from state [s]. *)
Definition new_request (config : ResolvedConfig) (url : string) (options : RequestOptions)
    (s : TState) : AxiosRequest :=
  {| ax_url := url; ax_method := request_method options;
     ax_headers := spread (spread (spread [("Content-Type"%string, HLit "application/json")]
                                          (cfg_defaultHeaders config))
                                  [("Authorization"%string,
                                    HOAuth url (request_method options) (nonce s))])
                          (opt_headers options);
     ax_data := if truthy (opt_body options) && is_body_method (request_method options)
                then opt_body options else JUndefined;
     ax_timeout := match opt_timeout options with Some t => t
                   | None => cfg_timeout config end |}.

(** With no middleware registered, the chain is the final handler, and an
    attempt draws one nonce and sends one request, whatever the network
    answers. *)
Lemma attempt_state net config url options s :
  snd (attempt net config [] url options s) =
  {| nonce := S (nonce s); sent := sent s ++ [new_request config url options s] |}.
Proof.
  unfold attempt, executeMiddlewareChain, final_handler. simpl.
  match goal with
  | |- snd (let '(_, _) := let '(_, _) := executeRequest ?n ?c ?tm ?t in _ in _) = _ =>
      pose proof (executeRequest_state n c tm t) as He;
      destruct (executeRequest n c tm t) as [r t'] eqn:Hx
  end.
  simpl in *. rewrite He. reflexivity.
Qed.

(** After [n] attempts without middleware started from nonce [n0] with
    [m0] requests sent: [n] nonces drawn, [n] requests sent, the [i]-th
    satisfying [P i]. *)
Definition attempts_inv (P : nat -> AxiosRequest -> Prop) (n0 m0 : nat)
    (n : nat) (s : TState) : Prop :=
  nonce s = n0 + n /\ List.length (sent s) = m0 + n /\
  forall i, i < n -> exists req, nth_error (sent s) (m0 + i) = Some req /\ P i req.

Lemma attempt_step (P : nat -> AxiosRequest -> Prop) net config url options n0 m0 n s :
  (forall i s0, nonce s0 = n0 + i -> P i (new_request config url options s0)) ->
  attempts_inv P n0 m0 n s ->
  attempts_inv P n0 m0 (S n) (snd (attempt net config [] url options s)).
Proof.
  intros HP (Hn & Hlen & Hold).
  rewrite attempt_state. unfold attempts_inv; simpl.
  split; [lia|]. split; [rewrite length_app; simpl; lia|].
  intros i Hi. destruct (Nat.eq_dec i n) as [->|Hne].
  - eexists. split.
    + rewrite nth_error_app2 by lia. rewrite Hlen, Nat.sub_diag. reflexivity.
    + now apply HP.
  - destruct (Hold i ltac:(lia)) as (req & Hreq & Hok).
    exists req. split; [|exact Hok].
    rewrite nth_error_app1 by lia. exact Hreq.
Qed.

Lemma request_sent (P : nat -> AxiosRequest -> Prop) net rnd config url options s tr res s' :
  (forall i s0, nonce s0 = nonce s + i -> P i (new_request config url options s0)) ->
  request net rnd config [] url options s = (tr, res, s') ->
  attempts_inv P (nonce s) (List.length (sent s)) (List.length (invocations tr)) s'.
Proof.
  intros HP Hrun. unfold request, withRetry in Hrun.
  apply (retry_loop_invariant _ _ _
           (attempts_inv P (nonce s) (List.length (sent s)))
           (fun n s0 => attempt_step P net config url options (nonce s) (List.length (sent s)) n s0 HP)
           _ _ _ _ _ _ 0 Hrun).
  unfold attempts_inv. repeat split; [lia | lia | intros i Hi; lia].
Qed.


End TransportFacts.

Module TransportClaims.
Import Retry Transport TransportFacts.

Definition config0 : ResolvedConfig :=
  {| cfg_timeout := 30000; cfg_maxRetries := 3; cfg_retryDelay := 1000;
     cfg_defaultHeaders := [] |}.

(** A server that fails the first request with a 503 and answers 200. *)
Definition net_503_then_200 (k : nat) : net_result :=
  if k =? 0 then Resp 503 empty_body else Resp 200 empty_body.

(** A server that answers every request with 200. *)
Definition net_200 (_ : nat) : net_result := Resp 200 empty_body.

(** A server that answers every request with a 401 whose body carries
    ["o:errorCode": "TIMEOUT"]. *)
Definition net_401_timeout_code (_ : nat) : net_result :=
  Resp 401 {| eb_detail := None; eb_title := None; eb_message := None;
              eb_oErrorCode := Some "TIMEOUT"%string; eb_code := None |}.

Definition post_options (hdrs : headers) (body : jsval) : RequestOptions :=
  {| opt_method := Some POST; opt_headers := hdrs; opt_body := body;
     opt_timeout := None; opt_maxRetries := None |}.

Definition state0 : TState := {| nonce := 0; sent := [] |}.


(** [async (ctx, next) => { ctx.body = 'injected'; return next(); }] *)
Definition inject_body : Middleware :=
  MwUpdate (fun c => {| ctx_url := ctx_url c; ctx_method := ctx_method c;
                        ctx_headers := ctx_headers c; ctx_body := JStr "injected";
                        ctx_metadata := ctx_metadata c |})
           (MwNext MwReturn).




(** C3: a 401 response whose body has ["o:errorCode": "TIMEOUT"] becomes a
    [NetSuiteError] with [isAuthError] true and [isRetryable] true (the
    server-supplied code is compared with the transport's own ['TIMEOUT']
    sentinel), so [request] invokes the attempt [maxRetries + 1 = 4] times
    instead of once. *)
Theorem request_retries_auth_error_with_timeout_code :
  let '(tr, res, _) := request net_401_timeout_code (fun _ => 1 # 2) config0 [] "u"%string
                               (post_options [] (JStr "x")) state0 in
  List.length (invocations tr) = 4 /\
  exists e, res = Rejected (ErrNS e) /\ isAuthError e = true /\ isRetryable e = true.
Proof.
  vm_compute. split; [reflexivity|]. eexists. split; [reflexivity|]. split; reflexivity.
Qed.

(** C9 (amended): whatever middlewares are registered, every request a
    [request] call sends carries a body only if that body is truthy and
    the request's method is POST, PUT or PATCH ([executeRequest] reads
    [context.body] and [context.method] as the chain leaves them). With
    no middleware registered, the [i]-th request carries [options.body]
    as its data exactly when that body is truthy and the method is POST,
    PUT or PATCH; otherwise its data is [undefined]. In particular a
    falsy body is then never attached. *)
Theorem request_body_attached net rnd config middlewares url options s :
  let '(tr, _, s') := request net rnd config middlewares url options s in
  (forall i req, nth_error (sent s') (List.length (sent s) + i) = Some req ->
   ax_data req = JUndefined \/
   (truthy (ax_data req) = true /\ is_body_method (ax_method req) = true)) /\
  (middlewares = [] ->
   forall i req, nth_error (sent s') (List.length (sent s) + i) = Some req ->
   i < List.length (invocations tr) ->
   ax_data req = (if truthy (opt_body options) && is_body_method (request_method options)
                  then opt_body options else JUndefined) /\
   (truthy (opt_body options) = false -> ax_data req = JUndefined) /\
   (ax_data req <> JUndefined <->
    truthy (opt_body options) = true /\ is_body_method (request_method options) = true)).
Proof.
  destruct (request net rnd config middlewares url options s) as [[tr res] s'] eqn:Hrun.
  split.
  - unfold request, withRetry in Hrun.
    assert (Hstep : forall (n : nat) t,
               (exists l, sent t = sent s ++ l /\ Forall body_ok l) ->
               exists l, sent (snd (attempt net config middlewares url options t)) = sent s ++ l
                         /\ Forall body_ok l).
    { intros n t (l & Hl & Hok).
      destruct (attempt_sent_body_ok net config middlewares url options t) as (l' & Hl' & Hok').
      exists (l ++ l'). split; [rewrite Hl', Hl, app_assoc; reflexivity|].
      apply Forall_app. split; assumption. }
    destruct (retry_loop_invariant _ _ _
                (fun _ t => exists l, sent t = sent s ++ l /\ Forall body_ok l)
                Hstep _ _ _ _ _ _ 0 Hrun
                (ex_intro _ [] (conj (eq_sym (app_nil_r _)) (Forall_nil _)))) as (l & Hl & Hok).
    intros i req Hreq. rewrite Hl, nth_error_app2 in Hreq by lia.
    rewrite Nat.add_comm, Nat.add_sub in Hreq.
    exact (proj1 (Forall_forall _ _) Hok req (nth_error_In _ _ Hreq)).
  - intros ->.
    destruct (request_sent
                (fun _ req => ax_data req =
                   (if truthy (opt_body options) && is_body_method (request_method options)
                    then opt_body options else JUndefined))
                net rnd config url options s tr res s' (fun _ _ _ => eq_refl) Hrun)
      as (_ & _ & Hall).
    intros i req Hreq Hi.
    destruct (Hall i Hi) as (req' & Hreq' & Hdata).
    rewrite Hreq in Hreq'. injection Hreq' as <-.
    rewrite Hdata. split; [reflexivity|]. split.
    + intros Hf. now rewrite Hf.
    + destruct (truthy (opt_body options)) eqn:Ht; destruct (is_body_method (request_method options));
        simpl; split; try tauto; try (intros H; destruct H; discriminate).
      * intros _ Hu. rewrite Hu in Ht. discriminate.
Qed.

(** Witness of [request_body_attached]: a POST with a falsy body [0] on a
    transport without middleware. *)
Lemma request_body_attached_witness :
  exists req, nth_error (sent (snd (request net_503_then_200 (fun _ => 1 # 2) config0 []
                                   "u"%string (post_options [] (JNum 0)) state0))) 0 = Some req /\
  ax_data req = JUndefined.
Proof.
  pose proof (request_body_attached net_503_then_200 (fun _ => 1 # 2) config0 [] "u"%string
                (post_options [] (JNum 0)) state0) as H.
  destruct (request net_503_then_200 (fun _ => 1 # 2) config0 [] "u"%string
              (post_options [] (JNum 0)) state0) as [[tr res] s'] eqn:Hrun.
  vm_compute in Hrun. injection Hrun as <- <- <-.
  eexists. split; [reflexivity|].
  refine (proj1 (proj2 (proj2 H eq_refl 0 _ eq_refl _)) eq_refl).
  vm_compute. lia.
Defined.

(** C9 counterexample: a middleware that assigns [context.body = 'injected']
    makes a POST whose supplied body is [undefined] (falsy) go out with a
    body. *)
Lemma request_attaches_middleware_body :
  let '(tr, _, s') :=
    request net_200 (fun _ => 1 # 2) config0 [inject_body] "u"%string
            (post_options [] JUndefined) state0 in
  truthy (opt_body (post_options [] JUndefined)) = false /\
  map ax_data (sent s') = [JStr "injected"].
Proof. vm_compute. split; reflexivity. Qed.

End TransportClaims.

Module QueryFacts.
Import SuiteQL.
Section Facts.
Context {T : Type}.
Variables (server : Server T) (o : QueryOptions).

Definition outcome_state (r : @loop_outcome T) : QState T :=
  match r with QBreak st | QFailed st | QRunning st => st end.

Lemma query_requests fuel :
  snd (query server o fuel) = requests (outcome_state (query_loop server o fuel (init_state o))).
Proof. unfold query. destruct (query_loop server o fuel (init_state o)); reflexivity. Qed.

End Facts.
End QueryFacts.

Module QueryClaims.
Import SuiteQL QueryFacts.

(** A server answering every request with one empty last page. *)
Definition empty_server : Server unit :=
  fun _ _ _ => Some {| items := []; page_totalResults := 0; page_hasMore := false |}.

(** A server holding [total] rows [tt], honouring limit and offset. *)
Definition rows_server (total : Z) : Server unit :=
  fun _ lim off =>
    let n := Z.max 0 (Z.min lim (total - off)) in
    Some {| items := repeat tt (Z.to_nat n); page_totalResults := total;
            page_hasMore := (off + n <? total)%Z |}.

(** C4: [query] does not cap the page size at the service ceiling of
    1000: with [pageSize: 5000] the first request is sent with
    [limit=5000], above 1000. *)
Lemma query_sends_limit_5000 :
  snd (query empty_server {| pageSize := 5000; startOffset := 0; maxRows := Infinity |} 10)
  = [(5000%Z, 0%Z)] /\ (1000 < 5000)%Z.
Proof. split; reflexivity. Qed.

(** C5: one pass of the loop. When [min(pageSize, maxRows - rowsSoFar) <= 0]
    it breaks without a request. Otherwise it sends that limit at the
    current offset and, given the page, continues exactly when the page is
    non-empty, the row count stays below [maxRows], and [hasMore] or
    [offset + items.length < totalResults] holds (otherwise it stops);
    after a [continue] the next pass sends a request again. *)
Theorem query_iter_spec {T : Type} (server : Server T) (o : QueryOptions) (st : QState T) :
  let lim := effective_limit o (Z.of_nat (List.length (allItems st))) in
  ((lim <= 0)%Z -> query_iter server o st = INoRequest) /\
  (forall page, (0 < lim)%Z ->
     server (pagesFetched st) lim (currentOffset st) = Some page ->
     let n := Z.of_nat (List.length (items page)) in
     let rows := Z.of_nat (List.length (allItems st ++ items page)) in
     ((exists st', query_iter server o st = IContinue st') <->
        (items page <> [] /\ reached o rows = false /\
         (page_hasMore page = true \/ (currentOffset st + n < page_totalResults page)%Z))) /\
     ((exists st', query_iter server o st = IStop st') <->
        (items page = [] \/ reached o rows = true \/
         (page_hasMore page = false /\ (page_totalResults page <= currentOffset st + n)%Z)))) /\
  (forall st', query_iter server o st = IContinue st' ->
     requests st' = requests st ++ [(lim, currentOffset st)] /\
     (0 < effective_limit o (Z.of_nat (List.length (allItems st'))))%Z).
Proof.
  intros lim.
  split; [|split].
  - intros Hle. unfold query_iter. fold lim.
    destruct (Z.leb_spec lim 0); [reflexivity | lia].
  - intros page Hpos Hpage n rows. unfold query_iter. fold lim.
    destruct (Z.leb_spec lim 0) as [Hc|_]; [lia|].
    rewrite Hpage. fold n. fold rows.
    assert (Hempty : items page = [] <-> n = 0%Z).
    { unfold n. destruct (items page); simpl; split; intros H; try reflexivity;
        try discriminate; lia. }
    rewrite Hempty.
    destruct (page_hasMore page);
      destruct (Z.ltb_spec (currentOffset st + n) (page_totalResults page)) as [Hlt|Hge];
      destruct (reached o rows); destruct (Z.eqb_spec n 0) as [Hz|Hnz]; simpl;
      split; split; intros Hgoal;
      try (destruct Hgoal as [st' Hst]; try discriminate);
      try (eexists; reflexivity);
      intuition (try discriminate; try lia; try congruence).
  - intros st' Hst'. unfold query_iter in Hst'. fold lim in Hst'.
    destruct (Z.leb_spec lim 0) as [Hc|Hpos]; [discriminate|].
    destruct (server (pagesFetched st) lim (currentOffset st)) as [page|]; [|discriminate].
    destruct (negb _ || _ || _) eqn:Hstop; [discriminate|].
    injection Hst' as <-. simpl. split; [reflexivity|].
    apply orb_false_iff in Hstop as [Hstop _]. apply orb_false_iff in Hstop as [_ Hr].
    unfold lim, effective_limit, reached in *.
    destruct (maxRows o) as [m|]; [|exact Hpos].
    apply Z.leb_gt in Hr. lia.
Qed.

(** Witness of [query_iter_spec]: the first of three pages of 2500 rows
    is followed by a further request. *)
Lemma query_iter_spec_witness :
  exists st', query_iter (rows_server 2500) default_options (init_state default_options)
              = IContinue st'.
Proof.
  destruct (query_iter_spec (rows_server 2500) default_options (init_state default_options))
    as (_ & Hpage & _).
  assert (Hpos : (0 < effective_limit default_options
                       (Z.of_nat (List.length (allItems (init_state (T := unit) default_options)))))%Z)
    by (vm_compute; reflexivity).
  assert (Hsrv : rows_server 2500 0 1000%Z 0%Z =
                 Some {| items := repeat tt 1000; page_totalResults := 2500;
                         page_hasMore := true |}) by (vm_compute; reflexivity).
  destruct (Hpage _ Hpos Hsrv) as [Hcont _].
  apply Hcont. split; [discriminate|]. split; [vm_compute; reflexivity|]. left. reflexivity.
Defined.

(** C10: with [maxRows <= 0] [query] sends no request and resolves to no
    items, [totalResults = 0], [pagesFetched = 0], [hasMore = false]. *)
Theorem query_nonpositive_maxRows {T : Type} (server : Server T) (o : QueryOptions)
    (fuel : nat) (m : Z) (Hm : maxRows o = Fin m) (Hle : (m <= 0)%Z) :
  query server o fuel =
  (Some {| res_items := []; res_totalResults := 0; res_pagesFetched := 0;
           res_hasMore := false |}, []).
Proof.
  unfold query. destruct fuel; simpl; unfold query_iter; simpl;
    unfold effective_limit; rewrite Hm;
    (destruct (Z.leb_spec (Z.min (pageSize o) (m - 0)) 0) as [_|Hc]; [reflexivity | lia]).
Qed.

(** Witness of [query_nonpositive_maxRows]: [maxRows: 0]. *)
Lemma query_nonpositive_maxRows_witness :
  query (rows_server 2500) {| pageSize := 1000; startOffset := 0; maxRows := Fin 0 |} 10 =
  (Some {| res_items := []; res_totalResults := 0; res_pagesFetched := 0;
           res_hasMore := false |}, []).
Proof.
  apply (query_nonpositive_maxRows (rows_server 2500)
           {| pageSize := 1000; startOffset := 0; maxRows := Fin 0 |} 10 0); reflexivity.
Defined.

End QueryClaims.

Module MiddlewareClaims.
Import MiddlewareChain.

(** C7: with [logging A] then [logging B] registered around the handler
    [H], the log grows by [A-enter, B-enter, H, B-exit, A-exit] and the
    handler's response is returned; with no middleware the chain is the
    final handler itself (run with [index = 0]), its response unchanged. *)
Theorem middleware_chain_order {Ctx Resp : Type} (A B : string) (context : Ctx)
    (response : Resp) (s : CState) :
  fst (executeMiddlewareChain [logging A; logging B] context (handler response) s) = response /\
  log (snd (executeMiddlewareChain [logging A; logging B] context (handler response) s)) =
    log s ++ [Enter A; Enter B; Handler; Exit B; Exit A] /\
  (forall finalHandler : M Resp,
     executeMiddlewareChain (Ctx := Ctx) [] context finalHandler s =
     finalHandler {| index := 0; log := log s |}) /\
  executeMiddlewareChain (Ctx := Ctx) [] context (handler response) s =
    (response, {| index := 0; log := log s ++ [Handler] |}).
Proof.
  split; [reflexivity|]. split; [|split; reflexivity].
  simpl. rewrite <- !app_assoc. reflexivity.
Qed.

End MiddlewareClaims.

Module AccountClaims.
Import Account.

(** The per-character effect of [normalizeAccountId]. *)
Definition norm_char (c : ascii) : ascii :=
  if Ascii.eqb c "_"%char then "-"%char else lower_char c.

Fixpoint string_map (f : ascii -> ascii) (s : string) : string :=
  match s with
  | EmptyString => EmptyString
  | String c s' => String (f c) (string_map f s')
  end.

Lemma lower_char_underscore c : Ascii.eqb (lower_char c) "_"%char = Ascii.eqb c "_"%char.
Proof.
  destruct c as [[] [] [] [] [] [] [] []]; reflexivity.
Qed.

Lemma norm_char_idem c : norm_char (norm_char c) = norm_char c.
Proof.
  destruct c as [[] [] [] [] [] [] [] []]; reflexivity.
Qed.

Lemma normalize_map s : normalizeAccountId s = string_map norm_char s.
Proof.
  unfold normalizeAccountId, norm_char.
  induction s as [|c s IH]; simpl; [reflexivity|].
  rewrite IH, lower_char_underscore.
  destruct (Ascii.eqb c "_"%char) eqn:Hc; [|reflexivity].
  apply Ascii.eqb_eq in Hc. subst c. reflexivity.
Qed.

Lemma string_map_length f s : String.length (string_map f s) = String.length s.
Proof. induction s; simpl; congruence. Qed.

Lemma string_map_get f s i c : String.get i s = Some c -> String.get i (string_map f s) = Some (f c).
Proof.
  revert i. induction s as [|c0 s IH]; intros [|i] H; simpl in *; try discriminate.
  - now injection H as ->.
  - now apply IH.
Qed.

Lemma string_map_compose f s :
  (forall c, f (f c) = f c) -> string_map f (string_map f s) = string_map f s.
Proof. intros Hf. induction s; simpl; [reflexivity|]. now rewrite Hf, IHs. Qed.

(** C8: [normalizeAccountId] keeps the length, lowercases every character
    and turns every underscore into a hyphen; it maps ["1234567_SB1"] to
    ["1234567-sb1"] and is idempotent; every host the code builds
    (SuiteQL, record and RESTlet base URLs, [buildSuiteTalkUrl],
    [buildRestletUrl]) embeds [normalizeAccountId accountId]. *)
Theorem normalizeAccountId_spec :
  normalizeAccountId "1234567_SB1" = "1234567-sb1"%string /\
  (forall s, String.length (normalizeAccountId s) = String.length s /\
     forall i c, String.get i s = Some c ->
       String.get i (normalizeAccountId s) =
         Some (if Ascii.eqb c "_"%char then "-"%char else lower_char c)) /\
  (forall s, normalizeAccountId (normalizeAccountId s) = normalizeAccountId s) /\
  (forall accountId,
     suiteql_baseUrl accountId =
       ("https://" ++ normalizeAccountId accountId
        ++ ".suitetalk.api.netsuite.com/services/rest/query/v1/suiteql")%string /\
     record_baseUrl accountId =
       ("https://" ++ normalizeAccountId accountId
        ++ ".suitetalk.api.netsuite.com/services/rest/record/v1")%string /\
     restlet_baseUrl accountId =
       ("https://" ++ normalizeAccountId accountId
        ++ ".restlets.api.netsuite.com/app/site/hosting/restlet.nl")%string /\
     buildSuiteTalkUrl accountId =
       ("https://" ++ normalizeAccountId accountId ++ ".suitetalk.api.netsuite.com")%string /\
     buildRestletUrl accountId =
       ("https://" ++ normalizeAccountId accountId ++ ".restlets.api.netsuite.com")%string).
Proof.
  split; [reflexivity|]. split; [|split].
  - intros s. rewrite normalize_map. split; [apply string_map_length|].
    intros i c Hi. exact (string_map_get norm_char s i c Hi).
  - intros s. rewrite !normalize_map. apply string_map_compose, norm_char_idem.
  - intros accountId. repeat split.
Qed.

(** Witness of [normalizeAccountId_spec]: position 7 of ["1234567_SB1"]. *)
Lemma normalizeAccountId_spec_witness :
  String.get 7 (normalizeAccountId "1234567_SB1") = Some "-"%char.
Proof.
  destruct normalizeAccountId_spec as (_ & Hchar & _).
  exact (proj2 (Hchar "1234567_SB1"%string) 7 "_"%char eq_refl).
Defined.

End AccountClaims.

(* ================================================================== *)
(** * Further properties of [HttpTransport.request] *)

Module TransportExtra.
Import Retry Transport TransportFacts.

(** On a transport without middleware, the [headers] object of every
    request [request] hands to [axiosInstance.request] (axios merges its
    instance defaults into it when it sends): a property of
    [options.headers] wins; otherwise [Authorization] is the fresh
    signature of that attempt (a [defaultHeaders] entry cannot replace
    it); otherwise a [defaultHeaders] property; otherwise [Content-Type]
    is ['application/json'] and the object has no other property. *)
Theorem request_header_precedence net rnd config url options s
    (Hnd1 : NoDup (map fst (opt_headers options)))
    (Hnd2 : NoDup (map fst (cfg_defaultHeaders config))) :
  let '(tr, _, s') := request net rnd config [] url options s in
  forall i req, i < List.length (invocations tr) ->
  nth_error (sent s') (List.length (sent s) + i) = Some req ->
  forall k, obj_get k (ax_headers req) =
    match obj_get k (opt_headers options) with
    | Some v => Some v
    | None =>
        if String.eqb k "Authorization" then
          Some (HOAuth url (request_method options) (nonce s + i))
        else match obj_get k (cfg_defaultHeaders config) with
             | Some v => Some v
             | None => if String.eqb k "Content-Type" then Some (HLit "application/json")
                       else None
             end
    end.
Proof.
  destruct (request net rnd config [] url options s) as [[tr res] s'] eqn:Hrun.
  set (P := fun i req => forall k, obj_get k (ax_headers req) =
    match obj_get k (opt_headers options) with
    | Some v => Some v
    | None =>
        if String.eqb k "Authorization" then
          Some (HOAuth url (request_method options) (nonce s + i))
        else match obj_get k (cfg_defaultHeaders config) with
             | Some v => Some v
             | None => if String.eqb k "Content-Type" then Some (HLit "application/json")
                       else None
             end
    end).
  assert (HP : forall i s0, nonce s0 = nonce s + i -> P i (new_request config url options s0)).
  { intros i s0 Hi k. unfold new_request. cbn [ax_headers].
    rewrite (obj_get_spread _ _ _ Hnd1).
    destruct (obj_get k (opt_headers options)); [reflexivity|].
    rewrite obj_get_spread by (repeat constructor; simpl; tauto). simpl.
    rewrite Hi.
    destruct (String.eqb k "Authorization"); [reflexivity|].
    rewrite (obj_get_spread _ _ _ Hnd2).
    destruct (obj_get k (cfg_defaultHeaders config)); reflexivity. }
  destruct (request_sent P net rnd config url options s tr res s' HP Hrun) as (_ & _ & Hall).
  intros i req Hi Hreq.
  destruct (Hall i Hi) as (req' & Hreq' & HPi).
  rewrite Hreq in Hreq'. injection Hreq' as <-. exact HPi.
Qed.

Definition cfg1 : ResolvedConfig :=
  {| cfg_timeout := 30000; cfg_maxRetries := 3; cfg_retryDelay := 1000;
     cfg_defaultHeaders := [("Authorization"%string, HLit "static");
                            ("Accept"%string, HLit "text/csv")] |}.

Definition post1 : RequestOptions :=
  {| opt_method := Some POST; opt_headers := [("Prefer"%string, HLit "transient")];
     opt_body := JStr "x"; opt_timeout := None; opt_maxRetries := None |}.

Definition state1 : TState := {| nonce := 0; sent := [] |}.

Definition net_500_then_200 (k : nat) : net_result :=
  if k =? 0 then Resp 500 empty_body else Resp 200 empty_body.

(** Witness of [request_header_precedence]: a [defaultHeaders]
    [Authorization] is overridden by the signature, its [Accept] is sent. *)
Lemma request_header_precedence_witness :
  exists req, nth_error (sent (snd (request net_500_then_200 (fun _ => 1 # 2) cfg1 [] "u"%string
                                   post1 state1))) 1 = Some req /\
  obj_get "Authorization" (ax_headers req) = Some (HOAuth "u" POST 1) /\
  obj_get "Accept" (ax_headers req) = Some (HLit "text/csv").
Proof.
  assert (Hnd1 : NoDup (map fst (opt_headers post1))) by (repeat constructor; simpl; tauto).
  assert (Hnd2 : NoDup (map fst (cfg_defaultHeaders cfg1))).
  { constructor; [simpl; intros [Hk|[]]; discriminate|].
    constructor; [simpl; tauto | constructor]. }
  pose proof (request_header_precedence net_500_then_200 (fun _ => 1 # 2) cfg1 "u"%string
                post1 state1 Hnd1 Hnd2) as H.
  destruct (request net_500_then_200 (fun _ => 1 # 2) cfg1 [] "u"%string post1 state1)
    as [[tr res] s'] eqn:Hrun.
  vm_compute in Hrun. injection Hrun as <- <- <-.
  eexists. split; [reflexivity|].
  split.
  - refine (eq_trans (H 1 _ ltac:(vm_compute; lia) eq_refl "Authorization"%string) _).
    reflexivity.
  - refine (eq_trans (H 1 _ ltac:(vm_compute; lia) eq_refl "Accept"%string) _).
    reflexivity.
Defined.

End TransportExtra.

(* ================================================================== *)
(** * Further properties of [query], [queryOne] and [queryPages] *)

Module QueryExtra.
Import SuiteQL SuiteQLPages QueryFacts.
Section Extra.
Context {T : Type}.
Variables (server : Server T) (o : QueryOptions).

(** [queryPages] in state [ps] has yielded, page by page, the rows [query]
    has in state [st], and both sent the same requests. *)
Definition sim (st : QState T) (ps : PState T) : Prop :=
  List.concat (yielded ps) = allItems st /\ p_currentOffset ps = currentOffset st /\
  totalYielded ps = Z.of_nat (List.length (allItems st)) /\
  p_fetched ps = pagesFetched st /\ p_requests ps = requests st /\
  Forall (fun p => p <> []) (yielded ps).

Lemma iter_sim st ps :
  sim st ps ->
  match query_iter server o st, pages_iter server o ps with
  | INoRequest, PReturn ps' => sim st ps'
  | IFail st', PThrow ps' => sim st' ps'
  | IStop st', PReturn ps' => sim st' ps'
  | IContinue st', PContinue ps' => sim st' ps'
  | _, _ => False
  end.
Proof.
  intros Hsim. pose proof Hsim as (H1 & H2 & H3 & H4 & H5 & H6).
  unfold query_iter, pages_iter. rewrite H2, H3, H4, H5.
  destruct (effective_limit o (Z.of_nat (List.length (allItems st))) <=? 0)%Z; [exact Hsim|].
  destruct (server (pagesFetched st) _ (currentOffset st)) as [page|].
  - destruct (Z.of_nat (List.length (items page)) =? 0)%Z eqn:Hn.
    + rewrite !orb_true_r.
      assert (He : items page = []).
      { destruct (items page); [reflexivity|]. simpl in Hn. lia. }
      rewrite He, app_nil_r. repeat split; simpl; assumption.
    + rewrite orb_false_r.
      replace (Z.of_nat (List.length (allItems st)) + Z.of_nat (List.length (items page)))%Z
        with (Z.of_nat (List.length (allItems st ++ items page)))
        by (rewrite length_app; lia).
      assert (Hsim' : forall off, sim
        {| allItems := allItems st ++ items page; currentOffset := off;
           totalResults := page_totalResults page; pagesFetched := S (pagesFetched st);
           requests := requests st ++ [(effective_limit o (Z.of_nat (List.length (allItems st))),
                                        currentOffset st)] |}
        {| yielded := yielded ps ++ [items page]; p_currentOffset := off;
           totalYielded := Z.of_nat (List.length (allItems st ++ items page));
           p_fetched := S (pagesFetched st);
           p_requests := requests st ++ [(effective_limit o (Z.of_nat (List.length (allItems st))),
                                          currentOffset st)] |}).
      { intros off. repeat split; simpl.
        - rewrite concat_app, H1. simpl. now rewrite app_nil_r.
        - apply Forall_app. split; [exact H6|]. constructor; [|constructor].
          intros He. rewrite He in Hn. discriminate. }
      destruct (_ || _); apply Hsim'.
  - repeat split; assumption.
Qed.

Lemma loop_sim fuel : forall st ps,
  sim st ps ->
  match query_loop server o fuel st, pages_loop server o fuel ps with
  | QBreak st', (GReturn, ps') => sim st' ps'
  | QFailed st', (GThrow, ps') => sim st' ps'
  | QRunning st', (GSuspended, ps') => sim st' ps'
  | _, _ => False
  end.
Proof.
  induction fuel as [|fuel IH]; intros st ps Hsim; simpl;
    pose proof (iter_sim st ps Hsim) as Hit;
    destruct (query_iter server o st), (pages_iter server o ps); try contradiction;
    try exact Hit; apply IH; exact Hit.
Qed.

(** Offsets that strictly increase along a list. *)
Definition increasing (l : list Z) : Prop :=
  forall i j a b, i < j -> nth_error l i = Some a -> nth_error l j = Some b -> (a < b)%Z.

Lemma increasing_snoc l x :
  increasing l -> (forall a, In a l -> (a < x)%Z) -> increasing (l ++ [x]).
Proof.
  intros Hl Hx i j a b Hij Ha Hb.
  destruct (Nat.lt_ge_cases j (List.length l)) as [Hj|Hj].
  - rewrite nth_error_app1 in Ha, Hb by lia. exact (Hl i j a b Hij Ha Hb).
  - rewrite nth_error_app2 in Hb by lia.
    destruct (j - List.length l) as [|k] eqn:Hk; [|destruct k; discriminate].
    injection Hb as <-. rewrite nth_error_app1 in Ha by lia.
    apply Hx, (nth_error_In _ _ Ha).
Qed.

(** The requests of a state: each limit follows from its offset, offsets
    start at [startOffset] and strictly increase. *)
Definition reqs_ok (st : QState T) : Prop :=
  (forall lim off, In (lim, off) (requests st) ->
     lim = effective_limit o (off - startOffset o) /\ (startOffset o <= off)%Z) /\
  increasing (map snd (requests st)) /\
  (forall lim off, hd_error (requests st) = Some (lim, off) -> off = startOffset o).

(** A state the loop body starts from. *)
Definition running_ok (st : QState T) : Prop :=
  reqs_ok st /\
  currentOffset st = (startOffset o + Z.of_nat (List.length (allItems st)))%Z /\
  (forall lim off, In (lim, off) (requests st) -> (off < currentOffset st)%Z) /\
  (requests st = [] -> currentOffset st = startOffset o).

Lemma iter_offsets st :
  running_ok st ->
  match query_iter server o st with
  | INoRequest => True
  | IFail st' | IStop st' => reqs_ok st'
  | IContinue st' => running_ok st'
  end.
Proof.
  intros ((Hreq & Hinc & Hhd) & Hoff & Hlt & Hfirst). unfold query_iter.
  set (lim := effective_limit o (Z.of_nat (List.length (allItems st)))).
  destruct (Z.leb_spec lim 0) as [_|Hpos]; [exact I|].
  assert (Hnew : reqs_ok {| allItems := allItems st; currentOffset := currentOffset st;
                            totalResults := totalResults st; pagesFetched := pagesFetched st;
                            requests := requests st ++ [(lim, currentOffset st)] |}).
  { split; [|split]; simpl.
    - intros l f Hin. apply in_app_or in Hin as [Hin|[Hin|[]]].
      + exact (Hreq l f Hin).
      + injection Hin as <- <-. split; [|lia].
        unfold lim. f_equal. lia.
    - rewrite map_app. apply increasing_snoc; [exact Hinc|].
      intros a Ha. apply in_map_iff in Ha as ([l f] & <- & Hin). exact (Hlt l f Hin).
    - intros l f Hh. destruct (requests st) as [|r0 rs] eqn:Hr.
      + simpl in Hh. injection Hh as <- <-. exact (Hfirst eq_refl).
      + simpl in Hh. apply (Hhd l f). exact Hh. }
  destruct (server (pagesFetched st) lim (currentOffset st)) as [page|]; [|exact Hnew].
  destruct (_ || _ || _) eqn:Hstop; [exact Hnew|].
  apply orb_false_iff in Hstop as [_ Hn]. apply Z.eqb_neq in Hn.
  split; [exact Hnew|]. simpl. split; [|split].
  - rewrite length_app. lia.
  - intros l f Hin. apply in_app_or in Hin as [Hin|[Hin|[]]].
    + specialize (Hlt l f Hin). lia.
    + injection Hin as <- <-. lia.
  - intros Hnil. destruct (requests st); discriminate.
Qed.

Lemma loop_offsets fuel : forall st,
  running_ok st -> reqs_ok (outcome_state (query_loop server o fuel st)).
Proof.
  induction fuel as [|fuel IH]; intros st Hok; simpl;
    pose proof (iter_offsets st Hok) as Hit;
    destruct (query_iter server o st) as [|st'|st'|st']; simpl; auto;
    try exact (proj1 Hok); try exact (proj1 Hit).
Qed.

(** The rows collected never exceed [maxRows] when the server returns at
    most [limit] rows. *)
Lemma loop_rows_bound m (Hm : maxRows o = Fin m)
    (Hhonour : forall k lim off page, (0 < lim)%Z -> server k lim off = Some page ->
                 (Z.of_nat (List.length (items page)) <= lim)%Z) fuel :
  forall st, (Z.of_nat (List.length (allItems st)) <= Z.max 0 m)%Z ->
  (Z.of_nat (List.length (allItems (outcome_state (query_loop server o fuel st))))
     <= Z.max 0 m)%Z.
Proof.
  induction fuel as [|fuel IH]; intros st Hst; simpl;
    unfold query_iter;
    set (lim := effective_limit o (Z.of_nat (List.length (allItems st))));
    (destruct (Z.leb_spec lim 0) as [_|Hpos]; [exact Hst|]);
    (destruct (server (pagesFetched st) lim (currentOffset st)) as [page|] eqn:Hs;
     [|exact Hst]);
    pose proof (Hhonour _ _ _ _ Hpos Hs) as Hp;
    assert (Hlim : (lim <= m - Z.of_nat (List.length (allItems st)))%Z)
      by (unfold lim, effective_limit; rewrite Hm; lia);
    assert (Hall : (Z.of_nat (List.length (allItems st ++ items page)) <= Z.max 0 m)%Z)
      by (rewrite length_app; lia);
    (destruct (_ || _ || _); simpl; [exact Hall|]); [exact Hall|apply IH; exact Hall].
Qed.

End Extra.

(** [queryPages], consumed to the end, yields only non-empty pages, sends
    exactly the requests [query] sends on the same options and server,
    and finishes normally exactly when [query] resolves, the concatenation
    of its pages being [query]'s [items]. *)
Theorem queryPages_matches_query {T : Type} (server : Server T) (o : QueryOptions)
    (fuel : nat) :
  let '(r, qreqs) := query server o fuel in
  let '(g, pages, preqs) := queryPages server o fuel in
  preqs = qreqs /\ Forall (fun p => p <> []) pages /\
  match r with
  | Some res => g = GReturn /\ List.concat pages = res_items res
  | None => g <> GReturn
  end.
Proof.
  unfold query, queryPages.
  assert (Hinit : sim (init_state o) (pages_init (T := T) o)) by (repeat split; constructor).
  pose proof (loop_sim server o fuel _ _ Hinit) as Hl.
  destruct (query_loop server o fuel (init_state o)) as [st|st|st];
    destruct (pages_loop server o fuel (pages_init o)) as [[] ps]; try contradiction;
    destruct Hl as (H1 & _ & _ & _ & H5 & H6); repeat split; auto; discriminate.
Qed.

(** The requests [query] sends: the first one is at [startOffset]; the
    one at offset [off] asks for
    [min(pageSize, maxRows - (off - startOffset))] rows, i.e. the offset
    advances by the rows received and the limit shrinks with them; offsets
    never go below [startOffset] and strictly increase, so no offset is
    asked twice. *)
Theorem query_request_offsets {T : Type} (server : Server T) (o : QueryOptions)
    (fuel : nat) :
  let reqs := snd (query server o fuel) in
  (forall lim off, hd_error reqs = Some (lim, off) -> off = startOffset o) /\
  (forall lim off, In (lim, off) reqs ->
     lim = effective_limit o (off - startOffset o) /\ (startOffset o <= off)%Z) /\
  increasing (map snd reqs).
Proof.
  intros reqs. unfold reqs. rewrite query_requests.
  assert (Hinit : running_ok o (init_state (T := T) o)).
  { split; [split; [|split]|split; [|split]].
    - intros l f [].
    - intros i j a b _ Ha. destruct i; discriminate.
    - intros l f Hh. discriminate.
    - simpl. lia.
    - intros l f [].
    - reflexivity. }
  destruct (loop_offsets server o fuel _ Hinit) as (H1 & H2 & H3).
  split; [exact H3|]. split; [exact H1|exact H2].
Qed.

(** When the server returns at most [limit] rows per page, a resolved
    [query] with [maxRows = m] has at most [max(0, m)] items. *)
Theorem query_items_le_maxRows {T : Type} (server : Server T) (o : QueryOptions)
    (fuel : nat) (m : Z) (Hm : maxRows o = Fin m)
    (Hhonour : forall k lim off page, (0 < lim)%Z -> server k lim off = Some page ->
                 (Z.of_nat (List.length (items page)) <= lim)%Z) :
  match fst (query server o fuel) with
  | Some res => (Z.of_nat (List.length (res_items res)) <= Z.max 0 m)%Z
  | None => True
  end.
Proof.
  pose proof (loop_rows_bound server o m Hm Hhonour fuel (init_state o) ltac:(simpl; lia)) as H.
  unfold query. destruct (query_loop server o fuel (init_state o)); simpl in *; auto.
Qed.

(** [queryOne] with [pageSize >= 1] sends exactly one request, for one row
    at [startOffset], and returns the first row of that page, or [null]
    when the page is empty; it rejects when that request does. *)
Theorem queryOne_single_request {T : Type} (server : Server T) (o : QueryOptions)
    (fuel : nat) (Hps : (1 <= pageSize o)%Z) :
  queryOne server o fuel =
  (match server 0 1%Z (startOffset o) with
   | Some page => Some (hd_error (items page))
   | None => None
   end, [(1%Z, startOffset o)]).
Proof.
  unfold queryOne, query.
  assert (Hl : effective_limit {| pageSize := pageSize o; startOffset := startOffset o;
                                  maxRows := Fin 1 |} (Z.of_nat 0) = 1%Z)
    by (unfold effective_limit; simpl; lia).
  destruct fuel; simpl; unfold query_iter; simpl; simpl in Hl; rewrite Hl; simpl;
    (destruct (server 0 1%Z (startOffset o)) as [page|]; [|reflexivity]);
    (destruct (items page) as [|x xs];
     [rewrite !orb_true_r; reflexivity|]);
    (replace (reached _ _) with true
       by (unfold reached; simpl; symmetry; apply Z.leb_le; lia));
    rewrite orb_true_r; reflexivity.
Qed.

(** A server holding [total] rows [tt], honouring limit and offset. *)
Definition table_server (total : Z) : Server unit :=
  fun _ lim off =>
    let n := Z.max 0 (Z.min lim (total - off)) in
    Some {| items := repeat tt (Z.to_nat n); page_totalResults := total;
            page_hasMore := (off + n <? total)%Z |}.

(** Witness of [query_items_le_maxRows]: [maxRows: 5] over pages of 2. *)
Lemma query_items_le_maxRows_witness :
  match fst (query (table_server 2500) {| pageSize := 2; startOffset := 0; maxRows := Fin 5 |} 10)
  with
  | Some res => (Z.of_nat (List.length (res_items res)) <= Z.max 0 5)%Z
  | None => True
  end.
Proof.
  apply (query_items_le_maxRows (table_server 2500)
           {| pageSize := 2; startOffset := 0; maxRows := Fin 5 |} 10 5 eq_refl).
  intros k lim off page Hpos Hs. unfold table_server in Hs.
  injection Hs as <-. simpl. rewrite repeat_length. lia.
Defined.

(** Witness of [queryOne_single_request]: the first of three rows. *)
Lemma queryOne_single_request_witness :
  queryOne (table_server 3) default_options 10 = (Some (Some tt), [(1%Z, 0%Z)]).
Proof.
  rewrite (queryOne_single_request (table_server 3) default_options 10
             ltac:(simpl; lia)).
  reflexivity.
Defined.

End QueryExtra.

(* ================================================================== *)
(** * Further properties of [executeMiddlewareChain] *)

Module MiddlewareExtra.
Import MiddlewareChain.
Section Extra.
Context {Ctx Resp : Type}.

(** [async () => response]: a middleware that answers without calling
    [next]. *)
Definition respond (response : Resp) : @Middleware Ctx Resp :=
  fun _ _ s => (response, s).

(** [async (ctx, next) => { await next(); return next(); }] *)
Definition twice : @Middleware Ctx Resp :=
  fun _ k s => let '(_, s1) := k s in k s1.

Lemma next_done (middlewares : list (@Middleware Ctx Resp)) context finalHandler fuel s :
  List.length middlewares <= index s ->
  next middlewares context finalHandler fuel s = finalHandler s.
Proof.
  intros H. destruct fuel; simpl; apply Nat.leb_le in H; rewrite H; reflexivity.
Qed.

Lemma next_step (middlewares : list (@Middleware Ctx Resp)) context finalHandler fuel
    middleware s :
  index s < List.length middlewares -> nth_error middlewares (index s) = Some middleware ->
  next middlewares context finalHandler (S fuel) s =
  middleware context (next middlewares context finalHandler fuel) (bump s).
Proof.
  intros Hlt Hnth. simpl. apply Nat.leb_gt in Hlt. rewrite Hlt, Hnth. reflexivity.
Qed.

Lemma next_logging_suffix (context : Ctx) (response : Resp) rest :
  forall (pre : list (@Middleware Ctx Resp)) L,
  next (pre ++ map logging rest) context (handler response) (List.length rest)
       {| index := List.length pre; log := L |} =
  (response, {| index := List.length pre + List.length rest;
                log := L ++ map Enter rest ++ [Handler] ++ rev (map Exit rest) |}).
Proof.
  induction rest as [|a rest IH]; intros pre L.
  - rewrite app_nil_r. simpl. rewrite Nat.leb_refl. unfold handler, record. simpl.
    now rewrite Nat.add_0_r.
  - simpl.
    match goal with
    | |- context [?x <=? ?y] =>
        replace (x <=? y) with false
          by (symmetry; apply Nat.leb_gt; rewrite ?length_app, ?length_map; simpl;
              rewrite ?length_app, ?length_map; lia)
    end.
    rewrite nth_error_app2 by lia. rewrite Nat.sub_diag. simpl.
    unfold logging at 1, bump, record at 1. simpl.
    replace (pre ++ logging a :: map logging rest) with ((pre ++ [logging a]) ++ map logging rest)
      by (rewrite <- app_assoc; reflexivity).
    replace (S (List.length pre)) with (List.length (pre ++ [logging a]))
      by (rewrite length_app; simpl; lia).
    rewrite IH. unfold record. simpl. rewrite length_app. simpl.
    f_equal. f_equal; [lia|].
    rewrite <- !app_assoc. reflexivity.
Qed.

Lemma next_short_circuit (context : Ctx) (r' : Resp) finalHandler post pre :
  forall (pre0 : list (@Middleware Ctx Resp)) L,
  next (pre0 ++ map logging pre ++ respond r' :: post) context finalHandler
       (List.length pre + S (List.length post))
       {| index := List.length pre0; log := L |} =
  (r', {| index := List.length pre0 + S (List.length pre);
          log := L ++ map Enter pre ++ rev (map Exit pre) |}).
Proof.
  induction pre as [|a pre IH]; intros pre0 L.
  - simpl.
    match goal with
    | |- context [?x <=? ?y] =>
        replace (x <=? y) with false
          by (symmetry; apply Nat.leb_gt; rewrite ?length_app, ?length_map; simpl;
              rewrite ?length_app, ?length_map; lia)
    end.
    rewrite nth_error_app2 by lia. rewrite Nat.sub_diag. simpl.
    unfold respond, bump. simpl. rewrite app_nil_r. f_equal. f_equal. lia.
  - simpl.
    match goal with
    | |- context [?x <=? ?y] =>
        replace (x <=? y) with false
          by (symmetry; apply Nat.leb_gt; rewrite ?length_app, ?length_map; simpl;
              rewrite ?length_app, ?length_map; lia)
    end.
    rewrite nth_error_app2 by lia. rewrite Nat.sub_diag. simpl.
    unfold logging at 1, bump, record at 1. simpl.
    replace (pre0 ++ logging a :: map logging pre ++ respond r' :: post)
      with ((pre0 ++ [logging a]) ++ map logging pre ++ respond r' :: post)
      by (rewrite <- app_assoc; reflexivity).
    replace (S (List.length pre0)) with (List.length (pre0 ++ [logging a]))
      by (rewrite length_app; simpl; lia).
    rewrite IH. unfold record. simpl. rewrite length_app. simpl.
    f_equal. f_equal; [lia|].
    rewrite <- !app_assoc. reflexivity.
Qed.

End Extra.

(** Logging middlewares [n1, ..., nk] nest around the handler: the log
    grows by [n1-enter, ..., nk-enter, H, nk-exit, ..., n1-exit], the
    handler runs once and its response is returned. *)
Theorem middleware_logging_nesting {Ctx Resp : Type} (names : list string)
    (context : Ctx) (response : Resp) (s : CState) :
  executeMiddlewareChain (map logging names) context (handler response) s =
  (response, {| index := List.length names;
                log := log s ++ map Enter names ++ [Handler] ++ rev (map Exit names) |}).
Proof.
  unfold executeMiddlewareChain. rewrite length_map.
  exact (next_logging_suffix context response names [] (log s)).
Qed.

(** A middleware that answers without calling [next] ends the chain: its
    response is returned, the middlewares before it unwind, and neither
    the middlewares after it nor the final handler run. *)
Theorem middleware_short_circuit {Ctx Resp : Type} (pre : list string) (r' : Resp)
    (post : list (@Middleware Ctx Resp)) (context : Ctx) (finalHandler : M Resp)
    (s : CState) :
  executeMiddlewareChain (map logging pre ++ respond r' :: post) context finalHandler s =
  (r', {| index := S (List.length pre);
          log := log s ++ map Enter pre ++ rev (map Exit pre) |}).
Proof.
  unfold executeMiddlewareChain. rewrite length_app, length_map. simpl.
  exact (next_short_circuit context r' finalHandler post pre [] (log s)).
Qed.

(** [next] shares one [index]: a first middleware that calls [next] twice
    runs the rest of the chain and the handler on the first call, but the
    second call goes straight to the final handler, skipping the other
    middlewares. *)
Theorem middleware_next_twice {Ctx Resp : Type} (names : list string)
    (context : Ctx) (response : Resp) (s : CState) :
  executeMiddlewareChain (twice :: map logging names) context (handler response) s =
  (response, {| index := S (List.length names);
                log := log s ++ map Enter names ++ [Handler] ++ rev (map Exit names)
                       ++ [Handler] |}).
Proof.
  pose proof (next_logging_suffix context response names [twice] (log s)) as H.
  simpl in H. unfold executeMiddlewareChain.
  replace (List.length (twice :: map logging names)) with (S (List.length names))
    by (simpl; now rewrite length_map).
  rewrite (next_step _ _ _ _ twice) by (simpl; auto with arith).
  unfold twice at 1. unfold bump. simpl index. simpl log. rewrite H.
  rewrite next_done by (simpl; rewrite length_map; lia).
  unfold handler, record. simpl. rewrite <- !app_assoc. reflexivity.
Qed.

End MiddlewareExtra.

(* ================================================================== *)
(** * Properties of [validateConfig] *)

Module ValidationExtra.
Import Validation.
Local Open Scope string_scope.

Lemma fails_string v : fails v "string" = false <-> exists s, v = VStr s /\ s <> "".
Proof.
  destruct v as [| | | | | |s| | | |];
    unfold fails; cbn [truthy typeof]; rewrite ?orb_true_r;
    try (split; intros H; [discriminate | destruct H as (s' & Hs & _); discriminate]).
  simpl. rewrite ?orb_false_r, ?negb_involutive. split.
  - intros H. exists s. split; [reflexivity|]. now apply String.eqb_neq.
  - intros (s' & Hs & Hne). injection Hs as <-. now apply String.eqb_neq.
Qed.

(** What passes [!v || typeof v !== 'object']: a plain object or an
    array. *)
Definition object_like (v : jv) : Prop :=
  (exists ps, v = VObject ps) \/ (exists es ps, v = VArray es ps).

Lemma fails_object v : fails v "object" = false <-> object_like v.
Proof.
  unfold object_like.
  destruct v; unfold fails; cbn [truthy typeof]; rewrite ?orb_true_r; simpl;
    split; intros H; try discriminate;
    try (destruct H as [(p & Hp)|(e & p & Hp)]; discriminate); eauto.
Qed.

Lemma flat_map_nil {A B : Type} (f : A -> list B) l :
  flat_map f l = [] <-> Forall (fun x => f x = []) l.
Proof.
  induction l as [|x l IH]; simpl; split; intros H; auto.
  - apply app_eq_nil in H as [H1 H2]. constructor; [exact H1 | now apply IH].
  - inversion H as [|? ? H1 H2]; subst. rewrite H1. now apply IH.
Qed.

Definition msg_config := "Config must be a non-null object".
Definition msg_auth := "auth is required and must be an object".
Definition msg_account := "accountId is required and must be a non-empty string".

(** [validateConfig] returns no error exactly when the config is an
    object (a plain object or an array) whose [auth] is an object with
    non-empty string [consumerKey], [consumerSecret], [tokenKey],
    [tokenSecret] and [realm], and whose [accountId] is a non-empty
    string. *)
Theorem validateConfig_valid_iff (config : jv) :
  validateConfig config = [] <->
  object_like config /\ object_like (get config "auth") /\
  Forall (fun field => exists s, get (get config "auth") field = VStr s /\ s <> "")
         requiredFields /\
  (exists s, get config "accountId" = VStr s /\ s <> "").
Proof.
  unfold validateConfig. split.
  - intros H.
    destruct (fails config "object") eqn:Hc; [discriminate|].
    apply app_eq_nil in H as [Ha Hacc].
    destruct (fails (get config "auth") "object") eqn:Ha'; [discriminate|].
    destruct (fails (get config "accountId") "string") eqn:Hs; [discriminate|].
    apply fails_string in Hs. apply fails_object in Hc, Ha'.
    split; [exact Hc|]. split; [exact Ha'|]. split; [|exact Hs].
    apply flat_map_nil in Ha. refine (Forall_impl _ _ Ha).
    intros field Hf. apply fails_string.
    destruct (fails (get (get config "auth") field) "string"); [discriminate|reflexivity].
  - intros (Hc & Ha & Hall & Hacc).
    apply fails_object in Hc, Ha. rewrite Hc, Ha.
    assert (Hs : fails (get config "accountId") "string" = false)
      by (apply fails_string; exact Hacc).
    rewrite Hs, app_nil_r. apply flat_map_nil.
    refine (Forall_impl _ _ Hall). intros field Hf.
    apply fails_string in Hf. rewrite Hf. reflexivity.
Qed.

(** The shape of the error list: anything but an object or an array
    ([null], [undefined], strings, numbers, functions, ...) gives the
    single message ['Config must be a non-null object']; an array without
    own named properties passes that check and gets the [auth] and
    [accountId] messages; an object or array config gets at most six
    messages, and at most two when [auth] is missing (no per-field
    messages then). *)
Theorem validateConfig_errors :
  (forall config, ~ object_like config -> validateConfig config = [msg_config]) /\
  (forall es, validateConfig (VArray es []) = [msg_auth; msg_account]) /\
  (forall config, object_like config ->
     List.length (validateConfig config) <= 6 /\
     (In msg_auth (validateConfig config) -> List.length (validateConfig config) <= 2)).
Proof.
  split; [|split].
  - intros config Hn. unfold validateConfig.
    destruct (fails config "object") eqn:Hc; [reflexivity|].
    apply fails_object in Hc. contradiction.
  - intros es. reflexivity.
  - intros config Hc. apply fails_object in Hc. unfold validateConfig. rewrite Hc.
    destruct (fails (get config "auth") "object") eqn:Ha.
    + split; destruct (fails (get config "accountId") "string"); simpl; try intros; lia.
    + assert (Hnot : ~ In msg_auth (flat_map (fun field =>
                        if fails (get (get config "auth") field) "string"
                        then ["auth." ++ field ++ " is required and must be a non-empty string"]
                        else []) requiredFields ++
                        (if fails (get config "accountId") "string"
                         then [msg_account] else []))).
      { simpl. repeat (destruct (fails _ _)); simpl;
          intros H; repeat (destruct H as [H|H]; [discriminate H|]); exact H. }
      split; [|intros H; contradiction].
      simpl. repeat (destruct (fails _ _)); simpl; lia.
Qed.

End ValidationExtra.

(* ================================================================== *)
(** * Properties of the SuiteQL query builder *)

Module BuilderExtra.
Import QueryBuilder.
Local Open Scope string_scope.

(** A SuiteQL string literal as the SQL reader takes it: after the opening
    quote, [''] stands for one quote and a lone quote closes the literal.
    The result is the value and the text after the closing quote. *)
Fixpoint read_body (s : string) : option (string * string) :=
  match s with
  | EmptyString => None
  | String c s' =>
      if Ascii.eqb c "'"%char then
        match s' with
        | String c2 s'' =>
            if Ascii.eqb c2 "'"%char
            then option_map (fun p => (String "'"%char (fst p), snd p)) (read_body s'')
            else Some ("", s')
        | EmptyString => Some ("", EmptyString)
        end
      else option_map (fun p => (String c (fst p), snd p)) (read_body s')
  end.

Definition sql_read_literal (s : string) : option (string * string) :=
  match s with
  | String c s' => if Ascii.eqb c "'"%char then read_body s' else None
  | EmptyString => None
  end.

Definition starts_with_quote (s : string) : bool :=
  match s with
  | String c _ => Ascii.eqb c "'"%char
  | EmptyString => false
  end.

Lemma str_append_assoc (a b c : string) : a ++ (b ++ c) = (a ++ b) ++ c.
Proof. induction a as [|x a IH]; simpl; [reflexivity | now rewrite IH]. Qed.

Lemma read_body_escape (v rest : string) :
  starts_with_quote rest = false ->
  read_body (escape_quotes v ++ String "'"%char rest) = Some (v, rest).
Proof.
  intros Hr. induction v as [|c v IH]; simpl.
  - destruct rest as [|c2 r]; [reflexivity|]. simpl in Hr. rewrite Hr. reflexivity.
  - destruct (Ascii.eqb_spec c "'"%char) as [->|Hc]; simpl.
    + rewrite IH. reflexivity.
    + apply Ascii.eqb_neq in Hc. rewrite Hc, IH. reflexivity.
Qed.

(** The literal [escapeValue] makes of a string reads back, under the SQL
    quoting rule, as exactly that string, and the literal ends where the
    escaped text ends: whatever follows it (not starting with a quote, as
    [ AND ...] or [)]) is left outside the literal. *)
Theorem escapeValue_string_roundtrip (v rest : string) :
  starts_with_quote rest = false ->
  sql_read_literal (escapeValue (SVStr v) ++ rest) = Some (v, rest).
Proof.
  intros Hr. unfold escapeValue. simpl.
  rewrite <- str_append_assoc. simpl. exact (read_body_escape v rest Hr).
Qed.

(** The builder methods, as calls. *)
Inductive call :=
| CSelect (columns : list string)
| CFrom (table : string) (alias : option string)
| CJoin (table condition : string) (type : JoinType)
| CLeftJoin (table condition : string)
| CRightJoin (table condition : string)
| CWhere (condition : string)
| CWhereEquals (column : string) (value : sqlvalue)
| CWhereNotEquals (column : string) (value : sqlvalue)
| CWhereIn (column : string) (values : list sqlvalue)
| CWhereNull (column : string)
| CWhereNotNull (column : string)
| CWhereBetween (column : string) (start end_ : sqlvalue)
| CWhereLike (column pattern : string)
| CGroupBy (columns : list string)
| CHaving (condition : string)
| COrderBy (column : string) (direction : Direction).

Definition run (c : call) (b : SuiteQLBuilder) : SuiteQLBuilder :=
  match c with
  | CSelect cols => select cols b
  | CFrom t a => from t a b
  | CJoin t c ty => join_ t c ty b
  | CLeftJoin t c => leftJoin t c b
  | CRightJoin t c => rightJoin t c b
  | CWhere c => where_ c b
  | CWhereEquals col v => whereEquals col v b
  | CWhereNotEquals col v => whereNotEquals col v b
  | CWhereIn col vs => whereIn col vs b
  | CWhereNull col => whereNull col b
  | CWhereNotNull col => whereNotNull col b
  | CWhereBetween col s e => whereBetween col s e b
  | CWhereLike col p => whereLike col p b
  | CGroupBy cols => groupBy cols b
  | CHaving c => having c b
  | COrderBy col d => orderBy col d b
  end.

Inductive clause := KSelect | KFrom | KJoins | KWhere | KGroupBy | KHaving | KOrderBy.

(** The field each method writes. *)
Definition clause_of (c : call) : clause :=
  match c with
  | CSelect _ => KSelect
  | CFrom _ _ => KFrom
  | CJoin _ _ _ | CLeftJoin _ _ | CRightJoin _ _ => KJoins
  | CWhere _ | CWhereEquals _ _ | CWhereNotEquals _ _ | CWhereIn _ _ | CWhereNull _
  | CWhereNotNull _ | CWhereBetween _ _ _ | CWhereLike _ _ => KWhere
  | CGroupBy _ => KGroupBy
  | CHaving _ => KHaving
  | COrderBy _ _ => KOrderBy
  end.

Definition run_all (cs : list call) (b : SuiteQLBuilder) : SuiteQLBuilder :=
  fold_left (fun b c => run c b) cs b.

(** Two builder calls that write different clauses commute: the builder,
    and so the SQL [build()] returns (or the error it throws), is the same
    whichever of the two comes first in a chain. *)
Theorem builder_calls_commute (c1 c2 : call) (pre post : list call) :
  clause_of c1 <> clause_of c2 ->
  run_all (pre ++ c1 :: c2 :: post) suiteql = run_all (pre ++ c2 :: c1 :: post) suiteql /\
  build (run_all (pre ++ c1 :: c2 :: post) suiteql) =
  build (run_all (pre ++ c2 :: c1 :: post) suiteql).
Proof.
  intros Hd.
  assert (Hsw : forall b, run c2 (run c1 b) = run c1 (run c2 b)).
  { intros b. destruct c1, c2; simpl in Hd; try (exfalso; now apply Hd); reflexivity. }
  assert (Heq : run_all (pre ++ c1 :: c2 :: post) suiteql =
                run_all (pre ++ c2 :: c1 :: post) suiteql).
  { unfold run_all. rewrite !fold_left_app. simpl. rewrite Hsw. reflexivity. }
  split; [exact Heq | now rewrite Heq].
Qed.

(** Witness of [escapeValue_string_roundtrip]: a name with a quote, inside
    a condition. *)
Lemma escapeValue_string_roundtrip_witness :
  sql_read_literal (escapeValue (SVStr "O'Brien") ++ " AND isinactive = 'F'") =
  Some ("O'Brien", " AND isinactive = 'F'").
Proof. apply escapeValue_string_roundtrip. reflexivity. Defined.

(** Witness of [builder_calls_commute]: a [whereEquals] and an [orderBy]. *)
Lemma builder_calls_commute_witness :
  let pre := [CSelect ["id"; "companyname"]; CFrom "customer" None] in
  run_all (pre ++ CWhereEquals "isinactive" (SVBool false) :: COrderBy "id" DESC :: [])%list suiteql =
  run_all (pre ++ COrderBy "id" DESC :: CWhereEquals "isinactive" (SVBool false) :: [])%list suiteql /\
  build (run_all (pre ++ CWhereEquals "isinactive" (SVBool false) :: COrderBy "id" DESC :: [])%list
           suiteql) =
  build (run_all (pre ++ COrderBy "id" DESC :: CWhereEquals "isinactive" (SVBool false) :: [])%list
           suiteql).
Proof. intros pre. apply builder_calls_commute. discriminate. Defined.

End BuilderExtra.

(* ================================================================== *)
(** * Properties of [ResponseCache] *)

Module CacheExtra.
Import Cache.
Local Open Scope string_scope.

Section Facts.
Context {D : Type}.
Implicit Types (cache m : ResponseCache D).

Lemma map_get_set k k' (e : CacheEntry) m :
  map_get k (map_set k' e m) = if String.eqb k k' then Some e else map_get k m.
Proof.
  induction m as [|(k'', e'') m IH]; simpl; [reflexivity|].
  destruct (String.eqb_spec k' k'') as [->|Hne]; simpl.
  - destruct (String.eqb k k''); reflexivity.
  - rewrite IH. destruct (String.eqb_spec k k') as [->|Hk]; [|reflexivity].
    apply String.eqb_neq in Hne. rewrite Hne. reflexivity.
Qed.

Lemma map_get_none k m : ~ In k (map fst m) -> map_get k m = None.
Proof.
  induction m as [|(k', e') m IH]; simpl; intros Hn; [reflexivity|].
  destruct (String.eqb_spec k k') as [->|_]; [exfalso; auto | auto].
Qed.

Lemma map_get_delete_other k k' m :
  k <> k' -> map_get k (snd (map_delete k' m)) = map_get k m.
Proof.
  intros Hne. induction m as [|(k'', e'') m IH]; simpl; [reflexivity|].
  destruct (String.eqb_spec k' k'') as [->|Hk].
  - simpl. apply String.eqb_neq in Hne. rewrite Hne. reflexivity.
  - destruct (map_delete k' m) as (b, m'') eqn:Hd. simpl in *. rewrite IH. reflexivity.
Qed.

Lemma map_delete_in x k m : In x (map fst (snd (map_delete k m))) -> In x (map fst m).
Proof.
  induction m as [|(k', e') m IH]; simpl; [auto|].
  destruct (String.eqb k k'); [simpl; auto|].
  destruct (map_delete k m) as (b, m'') eqn:Hd. simpl in *. intuition.
Qed.

Lemma map_delete_nodup k m : NoDup (map fst m) -> NoDup (map fst (snd (map_delete k m))).
Proof.
  induction m as [|(k', e') m IH]; simpl; intros Hnd; [constructor|].
  inversion Hnd as [|? ? Hn Hnd']; subst.
  destruct (String.eqb k k'); [exact Hnd'|].
  destruct (map_delete k m) as (b, m'') eqn:Hd. simpl in *.
  constructor; [|now apply IH]. intros Hin. apply Hn.
  apply (map_delete_in k' k m). rewrite Hd. exact Hin.
Qed.

Lemma map_get_delete_same k m : NoDup (map fst m) -> map_get k (snd (map_delete k m)) = None.
Proof.
  induction m as [|(k', e') m IH]; simpl; intros Hnd; [reflexivity|].
  inversion Hnd as [|? ? Hn Hnd']; subst.
  destruct (String.eqb_spec k k') as [->|Hne].
  - simpl. now apply map_get_none.
  - destruct (map_delete k m) as (b, m'') eqn:Hd. simpl in *.
    apply String.eqb_neq in Hne. rewrite Hne. exact (IH Hnd').
Qed.

Lemma map_delete_fst k m :
  fst (map_delete k m) = match map_get k m with Some _ => true | None => false end.
Proof.
  induction m as [|(k', e') m IH]; simpl; [reflexivity|].
  destruct (String.eqb k k'); [reflexivity|].
  destruct (map_delete k m) as (b, m'') eqn:Hd. exact IH.
Qed.

Lemma map_delete_length k m :
  List.length (snd (map_delete k m)) =
  List.length m - (if fst (map_delete k m) then 1 else 0).
Proof.
  induction m as [|(k', e') m IH]; simpl; [reflexivity|].
  destruct (String.eqb k k'); simpl; [lia|].
  destruct (map_delete k m) as (b, m'') eqn:Hd. simpl in *.
  destruct b; [|lia].
  destruct m as [|p m0]; [simpl in Hd; discriminate|]. simpl in IH |- *. lia.
Qed.

Lemma map_set_keys k (e : CacheEntry) m :
  map fst (map_set k e m) =
  match map_get k m with Some _ => map fst m | None => (map fst m ++ [k])%list end.
Proof.
  induction m as [|(k', e') m IH]; simpl; [reflexivity|].
  destruct (String.eqb_spec k k') as [->|Hne]; simpl; [reflexivity|].
  rewrite IH. destruct (map_get k m); reflexivity.
Qed.

Lemma map_set_nodup k (e : CacheEntry) m :
  NoDup (map fst m) -> NoDup (map fst (map_set k e m)).
Proof.
  intros Hnd. rewrite map_set_keys. destruct (map_get k m) eqn:Hg; [exact Hnd|].
  apply NoDup_app; [exact Hnd | constructor; [simpl; auto | constructor] |].
  intros x Hx [Hk|[]]. subst k. assert (Hs : map_get x m <> None).
  { clear Hnd Hg. induction m as [|(k', e') m IH]; simpl in *; [contradiction|].
    destruct Hx as [<-|Hx]; [rewrite String.eqb_refl; discriminate|].
    destruct (String.eqb x k'); [discriminate | auto]. }
  contradiction.
Qed.

(** A value set with a TTL of [ttlSeconds] at time [t0] is returned by
    [get] at any time up to [t0 + ttlSeconds * 1000] (the boundary
    included), and the cache is left as it was; after that, [get] returns
    [null], drops the entry (the size goes down by one) and every later
    [get] of that key returns [null]. *)
Theorem cache_set_get_ttl cache key (d : D) ttlSeconds t0 t :
  NoDup (map fst cache) ->
  let c1 := set key d ttlSeconds t0 cache in
  ((t <= t0 + ttlSeconds * 1000)%Q -> get key t c1 = (Some d, c1)) /\
  ((t0 + ttlSeconds * 1000 < t)%Q ->
     fst (get key t c1) = None /\
     size (snd (get key t c1)) = size c1 - 1 /\
     forall t', fst (get key t' (snd (get key t c1))) = None).
Proof.
  intros Hnd c1.
  assert (Hg : map_get key c1 = Some {| data := d; expiresAt := t0 + ttlSeconds * 1000 |}).
  { unfold c1, set. rewrite map_get_set, String.eqb_refl. reflexivity. }
  unfold get at 1 2 3. rewrite Hg. simpl expiresAt. simpl data. split.
  - intros Hle. apply Qle_bool_iff in Hle. rewrite Hle. reflexivity.
  - intros Hlt. assert (Hb : Qle_bool t (t0 + ttlSeconds * 1000) = false).
    { destruct (Qle_bool _ _) eqn:Hb; [|reflexivity].
      apply Qle_bool_iff in Hb. exfalso. exact (Qlt_not_le _ _ Hlt Hb). }
    rewrite Hb. simpl. split; [reflexivity|]. split.
    + unfold size. rewrite map_delete_length, map_delete_fst, Hg. reflexivity.
    + intros t'. unfold get. rewrite Hg. simpl expiresAt. rewrite Hb. simpl.
      rewrite map_get_delete_same; [reflexivity|].
      now apply map_set_nodup.
Qed.

(** Operations on one key leave the others alone, and [delete] reports
    whether the key was present: [set], [delete] and an expiring [get] of
    [k'] do not change what [get] returns for another key [k]; [delete]
    returns [true] exactly when the key has an entry (expired or not),
    and the size grows by one on [set] of a new key only and shrinks by
    one on a [delete] that returns [true] only. *)
Theorem cache_key_independence cache k k' (d : D) ttlSeconds t0 t t' :
  k <> k' ->
  fst (get k t (set k' d ttlSeconds t0 cache)) = fst (get k t cache) /\
  fst (get k t (snd (delete k' cache))) = fst (get k t cache) /\
  fst (get k t (snd (get k' t' cache))) = fst (get k t cache) /\
  fst (delete k cache) = match map_get k cache with Some _ => true | None => false end /\
  size (snd (delete k cache)) = size cache - (if fst (delete k cache) then 1 else 0) /\
  size (set k d ttlSeconds t0 cache) =
    size cache + (match map_get k cache with Some _ => 0 | None => 1 end).
Proof.
  intros Hne.
  assert (Hdel : fst (get k t (snd (delete k' cache))) = fst (get k t cache)).
  { unfold get, delete. rewrite (map_get_delete_other k k' cache Hne).
    destruct (map_get k cache); [destruct (negb _)|]; reflexivity. }
  split; [|split; [exact Hdel|split; [|split; [|split]]]].
  - unfold get, set. rewrite map_get_set. apply String.eqb_neq in Hne. rewrite Hne.
    destruct (map_get k cache); [destruct (negb _)|]; reflexivity.
  - unfold get at 2. destruct (map_get k' cache) as [e|]; [|reflexivity].
    destruct (negb (Qle_bool t' (expiresAt e))); [exact Hdel | reflexivity].
  - apply map_delete_fst.
  - apply map_delete_length.
  - unfold size, set. rewrite <- (length_map fst (map_set _ _ _)), map_set_keys.
    destruct (map_get k cache); rewrite ?length_app, length_map; simpl; lia.
Qed.

End Facts.

Definition cache1 : ResponseCache string :=
  [("GET:/a"%string, {| data := "x"%string; expiresAt := 5000 |});
   ("GET:/b"%string, {| data := "y"%string; expiresAt := 100 |})].

Lemma cache1_nodup : NoDup (map fst cache1).
Proof.
  simpl. constructor; [simpl; intros [H|[]]; discriminate H | constructor; [simpl; tauto | constructor]].
Qed.

(** Witness of [cache_set_get_ttl]: a 60 s entry read 90 s later. *)
Lemma cache_set_get_ttl_witness :
  let c1 := set "GET:/a" "new"%string 60 1000 cache1 in
  ((91000 <= 1000 + 60 * 1000)%Q -> get "GET:/a" 91000 c1 = (Some "new"%string, c1)) /\
  ((1000 + 60 * 1000 < 91000)%Q ->
     fst (get "GET:/a" 91000 c1) = None /\
     size (snd (get "GET:/a" 91000 c1)) = size c1 - 1 /\
     forall t', fst (get "GET:/a" t' (snd (get "GET:/a" 91000 c1))) = None).
Proof. apply cache_set_get_ttl. exact cache1_nodup. Defined.

(** Witness of [cache_key_independence]. *)
Lemma cache_key_independence_witness :
  fst (get "GET:/a" 2000 (set "GET:/b" "z"%string 60 1000 cache1)) = fst (get "GET:/a" 2000 cache1) /\
  fst (get "GET:/a" 2000 (snd (delete "GET:/b" cache1))) = fst (get "GET:/a" 2000 cache1) /\
  fst (get "GET:/a" 2000 (snd (get "GET:/b" 2000 cache1))) = fst (get "GET:/a" 2000 cache1) /\
  fst (delete "GET:/a" cache1) = match map_get "GET:/a" cache1 with Some _ => true | None => false end /\
  size (snd (delete "GET:/a" cache1)) = size cache1 - (if fst (delete "GET:/a" cache1) then 1 else 0) /\
  size (set "GET:/a" "z"%string 60 1000 cache1) =
    size cache1 + (match map_get "GET:/a" cache1 with Some _ => 0 | None => 1 end).
Proof. apply cache_key_independence. discriminate. Defined.

End CacheExtra.

(* ================================================================== *)
(** * Properties of [RateLimiter] *)

Module RateLimitExtra.
Import RateLimit.
Open Scope Z_scope.

Lemma drop_expired_head_gt c ts t r : drop_expired c ts = t :: r -> c < t.
Proof.
  induction ts as [|t0 ts IH]; simpl; [discriminate|].
  destruct (Z.leb_spec t0 c); [exact IH|]. intros Heq. injection Heq as <- _. lia.
Qed.

Lemma drop_expired_keep c t r : c < t -> drop_expired c (t :: r) = t :: r.
Proof. intros H. simpl. destruct (Z.leb_spec t c); [lia | reflexivity]. Qed.

Lemma drop_expired_length c ts : (List.length (drop_expired c ts) <= List.length ts)%nat.
Proof.
  induction ts as [|t ts IH]; simpl; [lia|]. destruct (t <=? c); simpl; lia.
Qed.

Lemma drop_expired_in c ts x : In x (drop_expired c ts) -> In x ts.
Proof.
  induction ts as [|t ts IH]; simpl; [auto|]. destruct (t <=? c); simpl; intuition.
Qed.

Lemma drop_expired_compose c1 c2 ts :
  c1 <= c2 -> drop_expired c2 (drop_expired c1 ts) = drop_expired c2 ts.
Proof.
  intros Hc. induction ts as [|t ts IH]; simpl; [reflexivity|].
  destruct (Z.leb_spec t c1).
  - rewrite IH. destruct (Z.leb_spec t c2); [reflexivity | lia].
  - reflexivity.
Qed.

Lemma drop_expired_earlier c1 c2 ts :
  c1 <= c2 -> drop_expired c1 (drop_expired c2 ts) = drop_expired c2 ts.
Proof.
  intros Hc. destruct (drop_expired c2 ts) as [|t r] eqn:Hd; [reflexivity|].
  apply drop_expired_keep. pose proof (drop_expired_head_gt _ _ _ _ Hd). lia.
Qed.

(** The three queries agree at a given time: [canMakeRequest()] is
    [true] exactly when [getRemainingRequests()] is positive, and exactly
    when [getTimeUntilNextSlot()] is [0]; each of them leaves the limiter
    in the same pruned state, and pruning again at the same or an earlier
    time changes nothing. *)
Theorem ratelimit_queries_agree now rl :
  (fst (canMakeRequest now rl) = true <-> 0 < fst (getRemainingRequests now rl)) /\
  (fst (canMakeRequest now rl) = true <-> fst (getTimeUntilNextSlot now rl) = Some 0) /\
  snd (getRemainingRequests now rl) = snd (canMakeRequest now rl) /\
  snd (getTimeUntilNextSlot now rl) = snd (canMakeRequest now rl) /\
  (forall t, t <= now -> pruneExpired t (snd (canMakeRequest now rl)) = snd (canMakeRequest now rl)).
Proof.
  unfold getRemainingRequests, getTimeUntilNextSlot, canMakeRequest.
  set (rl1 := pruneExpired now rl).
  split; [|split; [|split; [reflexivity|split]]].
  - simpl. destruct (Z.ltb_spec (Z.of_nat (List.length (timestamps rl1))) (maxRequests rl1));
      split; intros Hq; try discriminate; lia.
  - destruct (Z.ltb_spec (Z.of_nat (List.length (timestamps rl1))) (maxRequests rl1)).
    + simpl. split; reflexivity.
    + simpl. split; [discriminate|].
      destruct (drop_expired (now - windowMs rl) (timestamps rl)) as [|oldest r] eqn:Ht;
        simpl; intros Hq; [discriminate Hq|].
      injection Hq as Hd.
      pose proof (drop_expired_head_gt _ _ _ _ Ht) as Hgt. lia.
  - destruct (_ <? _); [reflexivity|]. destruct (timestamps rl1); reflexivity.
  - intros t Ht. unfold rl1, pruneExpired. simpl.
    rewrite drop_expired_earlier; [reflexivity | lia].
Qed.

(** When no request can be made at [now] (with a positive limit), the
    wait [getTimeUntilNextSlot()] returns is a positive number of
    milliseconds [d], at most [windowMs] when no timestamp lies in the
    future; no request can be made at any time before [now + d], and at
    [now + d] the oldest timestamp leaves the window, so that a limiter
    holding exactly [maxRequests] timestamps has a free slot again. *)
Theorem ratelimit_wait_exact now rl :
  0 < maxRequests rl ->
  fst (canMakeRequest now rl) = false ->
  let rl1 := snd (getTimeUntilNextSlot now rl) in
  exists d,
    fst (getTimeUntilNextSlot now rl) = Some d /\ 0 < d /\
    (Forall (fun t => t <= now) (timestamps rl) -> d <= windowMs rl) /\
    (forall t, t < now + d -> fst (canMakeRequest t rl1) = false) /\
    (List.length (timestamps (snd (canMakeRequest (now + d) rl1))) <
     List.length (timestamps rl1))%nat /\
    (Z.of_nat (List.length (timestamps rl1)) = maxRequests rl ->
     fst (canMakeRequest (now + d) rl1) = true).
Proof.
  intros Hmax Hfull rl1. unfold rl1. clear rl1.
  unfold canMakeRequest, getTimeUntilNextSlot, pruneExpired in *.
  cbn [fst snd timestamps maxRequests windowMs] in *.
  destruct (drop_expired (now - windowMs rl) (timestamps rl)) as [|oldest r] eqn:Hp.
  { simpl in Hfull. apply Z.ltb_ge in Hfull. lia. }
  rewrite Hfull. cbn [fst snd timestamps maxRequests windowMs].
  assert (Hgt : now - windowMs rl < oldest) by exact (drop_expired_head_gt _ _ _ _ Hp).
  exists (oldest + windowMs rl - now).
  rewrite Z.max_r by lia.
  split; [reflexivity|]. split; [lia|]. split; [|split; [|split]].
  - intros Hall. assert (Hin : In oldest (timestamps rl)).
    { apply (drop_expired_in (now - windowMs rl)). rewrite Hp. left; reflexivity. }
    rewrite Forall_forall in Hall. specialize (Hall oldest Hin). lia.
  - intros t Ht. rewrite drop_expired_keep by lia. exact Hfull.
  - replace (now + (oldest + windowMs rl - now) - windowMs rl) with oldest by lia.
    simpl. rewrite Z.leb_refl. pose proof (drop_expired_length oldest r). lia.
  - intros Hcount.
    replace (now + (oldest + windowMs rl - now) - windowMs rl) with oldest by lia.
    simpl. rewrite Z.leb_refl. pose proof (drop_expired_length oldest r).
    simpl in Hcount. apply Z.ltb_lt. lia.
Qed.

(** Witness of [ratelimit_wait_exact]: two requests per second, both used
    at 100 and 200; at 500 the wait is 600. *)
Lemma ratelimit_wait_exact_witness :
  let rl := {| timestamps := [100; 200]; maxRequests := 2; windowMs := 1000 |} in
  let rl1 := snd (getTimeUntilNextSlot 500 rl) in
  exists d,
    fst (getTimeUntilNextSlot 500 rl) = Some d /\ 0 < d /\
    (Forall (fun t => t <= 500) (timestamps rl) -> d <= windowMs rl) /\
    (forall t, t < 500 + d -> fst (canMakeRequest t rl1) = false) /\
    (List.length (timestamps (snd (canMakeRequest (500 + d) rl1))) <
     List.length (timestamps rl1))%nat /\
    (Z.of_nat (List.length (timestamps rl1)) = maxRequests rl ->
     fst (canMakeRequest (500 + d) rl1) = true).
Proof.
  intros rl. apply (ratelimit_wait_exact 500 rl); reflexivity.
Defined.

End RateLimitExtra.

(* ================================================================== *)
(** * Properties of the URL query strings ([URLSearchParams]) *)

Module SearchParamsExtra.
Import SearchParams.

(** The reading side of application/x-www-form-urlencoded, for the names
    and values [form_encode] produces (code points up to U+00FF): [+] is a
    space, [%XX] a byte, then UTF-8 decoding of one- and two-byte
    sequences. *)
Definition hex_val (c : ascii) : option nat :=
  let n := nat_of_ascii c in
  if (48 <=? n) && (n <=? 57) then Some (n - 48)
  else if (65 <=? n) && (n <=? 70) then Some (n - 55)
  else if (97 <=? n) && (n <=? 102) then Some (n - 87)
  else None.

Fixpoint pct_decode (s : string) : list nat :=
  match s with
  | EmptyString => []
  | String c s' =>
      if Ascii.eqb c "+"%char then 32 :: pct_decode s'
      else if Ascii.eqb c "%"%char then
        match s' with
        | String h1 (String h2 s'') =>
            match hex_val h1, hex_val h2 with
            | Some a, Some b => (a * 16 + b) :: pct_decode s''
            | _, _ => 37 :: pct_decode s'
            end
        | _ => 37 :: pct_decode s'
        end
      else nat_of_ascii c :: pct_decode s'
  end.

Fixpoint utf8_decode (bs : list nat) : option string :=
  match bs with
  | [] => Some EmptyString
  | b :: bs' =>
      if b <? 128 then option_map (String (ascii_of_nat b)) (utf8_decode bs')
      else match bs' with
           | b2 :: bs'' =>
               if (192 <=? b) && (b <? 224) && (128 <=? b2) && (b2 <? 192)
                  && ((b - 192) * 64 + (b2 - 128) <? 256)
               then option_map (String (ascii_of_nat ((b - 192) * 64 + (b2 - 128))))
                               (utf8_decode bs'')
               else None
           | [] => None
           end
  end.

Definition form_decode (s : string) : option string := utf8_decode (pct_decode s).

Fixpoint split_on (sep : ascii) (s : string) : list string :=
  match s with
  | EmptyString => [EmptyString]
  | String c s' =>
      if Ascii.eqb c sep then EmptyString :: split_on sep s'
      else match split_on sep s' with
           | [] => [String c EmptyString]
           | x :: xs => String c x :: xs
           end
  end.

Fixpoint break_at (sep : ascii) (s : string) : string * option string :=
  match s with
  | EmptyString => (EmptyString, None)
  | String c s' =>
      if Ascii.eqb c sep then (EmptyString, Some s')
      else let (a, b) := break_at sep s' in (String c a, b)
  end.

Definition parse_pair (piece : string) : option (string * string) :=
  let (n, v) := break_at "="%char piece in
  match form_decode n, form_decode (match v with Some v => v | None => EmptyString end) with
  | Some a, Some b => Some (a, b)
  | _, _ => None
  end.

(** Parsing a query string: split at [&], skip empty pieces, split each
    at its first [=] and decode both sides. *)
Definition parse_query (s : string) : option params :=
  fold_right (fun piece acc =>
                match parse_pair piece, acc with
                | Some p, Some ps => Some (p :: ps)
                | _, _ => None
                end)
             (Some []) (filter (fun p => negb (String.eqb p EmptyString)) (split_on "&"%char s)).

Fixpoint has_char (x : ascii) (s : string) : bool :=
  match s with
  | EmptyString => false
  | String c s' => Ascii.eqb c x || has_char x s'
  end.

Fixpoint wf_enc (s : string) : bool :=
  match s with
  | EmptyString => true
  | String c s' =>
      if Ascii.eqb c "%"%char then
        match s' with
        | String h1 (String h2 s'') =>
            match hex_val h1, hex_val h2 with
            | Some _, Some _ => wf_enc s''
            | _, _ => false
            end
        | _ => false
        end
      else wf_enc s'
  end.

Definition char_bytes (c : ascii) : list nat :=
  let n := nat_of_ascii c in
  if n <? 128 then [n] else [192 + n / 64; 128 + n mod 64].

Fixpoint nat_list_eqb (l1 l2 : list nat) : bool :=
  match l1, l2 with
  | [], [] => true
  | x :: l1', y :: l2' => Nat.eqb x y && nat_list_eqb l1' l2'
  | _, _ => false
  end.

Lemma nat_list_eqb_eq l1 l2 : nat_list_eqb l1 l2 = true -> l1 = l2.
Proof.
  revert l2; induction l1 as [|x l1 IH]; intros [|y l2]; simpl; try discriminate; auto.
  intros H. apply andb_true_iff in H as [H1 H2]. apply Nat.eqb_eq in H1. subst.
  f_equal. now apply IH.
Qed.

Definition all_chars : list ascii := map ascii_of_nat (seq 0 256).

Lemma all_chars_complete c : In c all_chars.
Proof.
  unfold all_chars. rewrite <- (ascii_nat_embedding c). apply in_map. apply in_seq.
  pose proof (nat_ascii_bounded c). lia.
Qed.

Definition char_ok (c : ascii) : bool :=
  wf_enc (encode_char c) && nat_list_eqb (pct_decode (encode_char c)) (char_bytes c)
  && negb (has_char "&"%char (encode_char c)) && negb (has_char "="%char (encode_char c)).

Lemma char_ok_all : forallb char_ok all_chars = true.
Proof. vm_compute. reflexivity. Qed.

Lemma char_ok_true c : char_ok c = true.
Proof.
  pose proof char_ok_all as H. rewrite forallb_forall in H.
  exact (H c (all_chars_complete c)).
Qed.

Lemma pct_decode_app_aux n : forall x rest, String.length x <= n -> wf_enc x = true ->
  pct_decode (x ++ rest) = pct_decode x ++ pct_decode rest.
Proof.
  induction n as [|n IH]; intros x rest Hl Hwf.
  - destruct x; simpl in *; [reflexivity | lia].
  - destruct x as [|c s']; [reflexivity|]. simpl in Hl, Hwf |- *.
    destruct (Ascii.eqb c "+"%char) eqn:Hplus.
    + apply Ascii.eqb_eq in Hplus. subst c. simpl in Hwf.
      rewrite IH by (simpl; lia || exact Hwf). reflexivity.
    + destruct (Ascii.eqb c "%"%char) eqn:Hpct.
      * destruct s' as [|h1 [|h2 s'']]; try discriminate. simpl.
        destruct (hex_val h1), (hex_val h2); try discriminate.
        simpl in Hl. rewrite IH by (lia || exact Hwf). reflexivity.
      * rewrite IH by (lia || exact Hwf). reflexivity.
Qed.

Lemma pct_decode_app x rest : wf_enc x = true ->
  pct_decode (x ++ rest) = pct_decode x ++ pct_decode rest.
Proof. apply (pct_decode_app_aux (String.length x)). lia. Qed.

Lemma wf_enc_app x y : wf_enc x = true -> wf_enc y = true -> wf_enc (x ++ y) = true.
Proof.
  intros Hx Hy. remember (String.length x) as n eqn:Hn.
  assert (Hl : String.length x <= n) by lia. clear Hn. revert x Hl Hx.
  induction n as [|n IH]; intros x Hl Hx.
  - destruct x; simpl in *; [exact Hy | lia].
  - destruct x as [|c s']; [exact Hy|]. simpl in Hl, Hx |- *.
    destruct (Ascii.eqb c "%"%char).
    + destruct s' as [|h1 [|h2 s'']]; try discriminate. simpl in Hl, Hx |- *.
      destruct (hex_val h1), (hex_val h2); try discriminate. apply IH; [lia | exact Hx].
    + apply IH; [lia | exact Hx].
Qed.

Lemma char_bytes_decode c bs :
  utf8_decode (char_bytes c ++ bs) = option_map (String c) (utf8_decode bs).
Proof.
  unfold char_bytes. pose proof (nat_ascii_bounded c) as Hb.
  set (n := nat_of_ascii c) in *.
  destruct (Nat.ltb_spec n 128) as [Hlt|Hge].
  - simpl. destruct (Nat.ltb_spec n 128); [|lia]. unfold n. rewrite ascii_nat_embedding.
    reflexivity.
  - pose proof (Nat.div_mod_eq n 64) as Hdm. pose proof (Nat.mod_upper_bound n 64) as Hm.
    set (q := n / 64) in *. set (r := n mod 64) in *.
    assert (Hq : q < 4) by lia.
    cbn [app utf8_decode].
    replace (192 + q <? 128) with false by (symmetry; apply Nat.ltb_ge; lia).
    replace ((192 <=? 192 + q) && (192 + q <? 224) && (128 <=? 128 + r) && (128 + r <? 192)
             && ((192 + q - 192) * 64 + (128 + r - 128) <? 256)) with true.
    + replace ((192 + q - 192) * 64 + (128 + r - 128)) with n by lia.
      unfold n. rewrite ascii_nat_embedding. reflexivity.
    + symmetry. repeat rewrite andb_true_iff.
      rewrite !Nat.leb_le, !Nat.ltb_lt. lia.
Qed.

Lemma char_ok_parts c :
  wf_enc (encode_char c) = true /\ pct_decode (encode_char c) = char_bytes c /\
  has_char "&"%char (encode_char c) = false /\ has_char "="%char (encode_char c) = false.
Proof.
  pose proof (char_ok_true c) as H. unfold char_ok in H.
  repeat rewrite andb_true_iff in H. destruct H as [[[H1 H2] H3] H4].
  apply negb_true_iff in H3, H4. apply nat_list_eqb_eq in H2. auto.
Qed.

Lemma has_char_app x a b : has_char x (a ++ b) = has_char x a || has_char x b.
Proof. induction a as [|c a IH]; simpl; [reflexivity|]. rewrite IH, orb_assoc. reflexivity. Qed.

Lemma form_encode_wf s : wf_enc (form_encode s) = true.
Proof.
  induction s as [|c s IH]; [reflexivity|]. simpl.
  apply wf_enc_app; [apply char_ok_parts | exact IH].
Qed.

(** Decoding what [form_encode] makes gives the string back. *)
Lemma form_decode_encode s : form_decode (form_encode s) = Some s.
Proof.
  unfold form_decode. induction s as [|c s IH]; [reflexivity|]. simpl.
  destruct (char_ok_parts c) as (Hwf & Hdec & _).
  rewrite pct_decode_app by exact Hwf. rewrite Hdec, char_bytes_decode, IH. reflexivity.
Qed.

Lemma form_encode_no_amp s : has_char "&"%char (form_encode s) = false.
Proof.
  induction s as [|c s IH]; [reflexivity|]. simpl. rewrite has_char_app, IH.
  destruct (char_ok_parts c) as (_ & _ & H & _). rewrite H. reflexivity.
Qed.

Lemma form_encode_no_eq s : has_char "="%char (form_encode s) = false.
Proof.
  induction s as [|c s IH]; [reflexivity|]. simpl. rewrite has_char_app, IH.
  destruct (char_ok_parts c) as (_ & _ & _ & H). rewrite H. reflexivity.
Qed.

Lemma split_on_no sep a : has_char sep a = false -> split_on sep a = [a].
Proof.
  induction a as [|c a IH]; simpl; [reflexivity|]. intros H.
  apply orb_false_iff in H as [H1 H2]. rewrite H1, IH by exact H2. reflexivity.
Qed.

Lemma split_on_app sep a b :
  has_char sep a = false -> split_on sep (a ++ String sep b) = a :: split_on sep b.
Proof.
  induction a as [|c a IH]; simpl; intros H.
  - rewrite Ascii.eqb_refl. reflexivity.
  - apply orb_false_iff in H as [H1 H2]. rewrite H1, IH by exact H2. reflexivity.
Qed.

Lemma split_on_join sep ps :
  ps <> [] -> Forall (fun p => has_char sep p = false) ps ->
  split_on sep (QueryBuilder.join (String sep EmptyString) ps) = ps.
Proof.
  induction ps as [|p ps IH]; intros Hne Hall; [contradiction|].
  inversion Hall as [|? ? Hp Hps]; subst.
  destruct ps as [|q ps].
  - simpl. now apply split_on_no.
  - change (QueryBuilder.join (String sep EmptyString) (p :: q :: ps))
      with (p ++ String sep (QueryBuilder.join (String sep EmptyString) (q :: ps)))%string.
    rewrite split_on_app by exact Hp. rewrite IH by (discriminate || exact Hps). reflexivity.
Qed.

Lemma break_at_app sep a b :
  has_char sep a = false -> break_at sep (a ++ String sep b) = (a, Some b).
Proof.
  induction a as [|c a IH]; simpl; intros H.
  - rewrite Ascii.eqb_refl. reflexivity.
  - apply orb_false_iff in H as [H1 H2]. rewrite H1, IH by exact H2. reflexivity.
Qed.

Definition pair_enc (p : string * string) : string :=
  (form_encode (fst p) ++ "=" ++ form_encode (snd p))%string.

Lemma parse_pair_enc p : parse_pair (pair_enc p) = Some p.
Proof.
  unfold parse_pair, pair_enc. simpl.
  rewrite break_at_app by apply form_encode_no_eq.
  rewrite !form_decode_encode. destruct p; reflexivity.
Qed.

Lemma pair_enc_nonempty p : String.eqb (pair_enc p) EmptyString = false.
Proof. unfold pair_enc. destruct (form_encode (fst p)); reflexivity. Qed.

(** Whatever names and values (code points up to U+00FF) a parameter
    list holds, the query string [toString()] makes of it parses back to
    exactly that list, in order: the encoding never lets a name or a value
    leak into a neighbouring one. *)
Theorem serialize_roundtrip (l : params) : parse_query (serialize l) = Some l.
Proof.
  destruct l as [|p l]; [reflexivity|].
  unfold parse_query, serialize.
  change (fun p0 : string * string => (form_encode (fst p0) ++ "=" ++ form_encode (snd p0))%string)
    with pair_enc.
  rewrite split_on_join.
  - assert (Hf : forall l', filter (fun p0 => negb (String.eqb p0 EmptyString)) (map pair_enc l')
                            = map pair_enc l').
    { induction l' as [|x l' IH]; simpl; [reflexivity|]. rewrite pair_enc_nonempty, IH.
      reflexivity. }
    rewrite Hf. clear Hf. generalize (p :: l). intros l'.
    induction l' as [|x l' IH]; simpl; [reflexivity|]. rewrite parse_pair_enc, IH. reflexivity.
  - discriminate.
  - apply Forall_forall. intros x Hx. apply in_map_iff in Hx as (q & <- & _).
    unfold pair_enc. rewrite !has_char_app, !form_encode_no_amp. reflexivity.
Qed.

Lemma serialize_empty l : String.eqb (serialize l) EmptyString = match l with [] => true | _ => false end.
Proof.
  destruct l as [|p l]; [reflexivity|]. unfold serialize. simpl.
  destruct l; simpl; destruct (form_encode (fst p)); reflexivity.
Qed.

(** Setting the entries of [entries] (distinct names), in order, on a list
    [l] (distinct names): each name already in [l] keeps its place and
    takes the value from [entries]; the other entries follow, in their
    order. *)
Definition overlay (entries l : params) : params :=
  (map (fun p => (fst p, match usp_get (fst p) entries with Some v => v | None => snd p end)) l
   ++ filter (fun e => negb (existsb (String.eqb (fst e)) (map fst l))) entries)%list.

Lemma filter_absent k (B : params) :
  ~ In k (map fst B) -> filter (fun p => negb (String.eqb (fst p) k)) B = B.
Proof.
  induction B as [|(n, w) B IH]; simpl; intros Hn; [reflexivity|].
  destruct (String.eqb_spec n k) as [->|_]; [exfalso; auto|]. simpl. rewrite IH; auto.
Qed.

Lemma usp_set_absent k v (A : params) : ~ In k (map fst A) -> usp_set k v A = (A ++ [(k, v)])%list.
Proof.
  induction A as [|(n, w) A IH]; simpl; intros Hn; [reflexivity|].
  destruct (String.eqb_spec n k) as [->|_]; [exfalso; auto|]. rewrite IH; auto.
Qed.

Lemma usp_set_in k v (A : params) :
  NoDup (map fst A) -> In k (map fst A) ->
  usp_set k v A = map (fun p => if String.eqb (fst p) k then (fst p, v) else p) A.
Proof.
  induction A as [|(n, w) A IH]; simpl; intros Hnd Hin; [contradiction|].
  inversion Hnd as [|? ? Hn Hnd']; subst.
  destruct (String.eqb_spec n k) as [->|Hne].
  - rewrite filter_absent by exact Hn. f_equal.
    transitivity (map (fun p : string * string => p) A); [now rewrite map_id|].
    apply map_ext_in. intros (n', w') Hp. simpl.
    destruct (String.eqb_spec n' k) as [->|_]; [|reflexivity].
    exfalso. apply Hn. apply in_map_iff. exists (k, w'). auto.
  - destruct Hin as [->|Hin]; [contradiction|]. rewrite IH; auto.
Qed.

Lemma usp_get_snoc name (entries : params) k v :
  ~ In k (map fst entries) ->
  usp_get name (entries ++ [(k, v)])%list =
  match usp_get name entries with Some x => Some x | None => if String.eqb k name then Some v else None end.
Proof.
  induction entries as [|(n, w) entries IH]; simpl; intros Hn; [reflexivity|].
  destruct (String.eqb n name); [reflexivity|]. apply IH. auto.
Qed.

Lemma usp_get_absent name (entries : params) : ~ In name (map fst entries) -> usp_get name entries = None.
Proof.
  induction entries as [|(n, w) entries IH]; simpl; intros Hn; [reflexivity|].
  destruct (String.eqb_spec n name) as [->|_]; [exfalso; auto | auto].
Qed.

Lemma existsb_in k (names : list string) : existsb (String.eqb k) names = true <-> In k names.
Proof.
  rewrite existsb_exists. split.
  - intros (x & Hx & He). apply String.eqb_eq in He. subst. exact Hx.
  - intros H. exists k. split; [exact H | apply String.eqb_refl].
Qed.

Lemma overlay_keys entries l x : In x (map fst (overlay entries l)) -> In x (map fst l) \/ In x (map fst entries).
Proof.
  unfold overlay. rewrite map_app, in_app_iff, map_map. simpl. intros [H|H].
  - left. rewrite map_ext with (g := fst) in H by reflexivity. exact H.
  - right. apply in_map_iff in H as (e & <- & He). apply filter_In in He as [He _].
    now apply in_map.
Qed.

Lemma usp_set_app_l k v (A B : params) :
  In k (map fst A) ->
  usp_set k v (A ++ B)%list = (usp_set k v A ++ filter (fun p => negb (String.eqb (fst p) k)) B)%list.
Proof.
  induction A as [|(n, w) A IH]; simpl; intros Hin; [contradiction|].
  destruct (String.eqb_spec n k) as [->|Hne].
  - rewrite filter_app. reflexivity.
  - destruct Hin as [->|Hin]; [contradiction|]. rewrite IH by exact Hin. reflexivity.
Qed.

Lemma keys_upd (entries l : params) :
  map fst (map (fun p => (fst p, match usp_get (fst p) entries with Some v => v | None => snd p end)) l)
  = map fst l.
Proof. rewrite map_map. reflexivity. Qed.

Lemma fold_usp_set (entries l : params) :
  NoDup (map fst l) -> NoDup (map fst entries) ->
  fold_left (fun acc kv => usp_set (fst kv) (snd kv) acc) entries l = overlay entries l.
Proof.
  intros Hl. induction entries as [|(k, v) entries IH] using rev_ind; intros He.
  - unfold overlay. simpl. rewrite app_nil_r. clear Hl He.
    induction l as [|(n, w) l IHl]; simpl; [reflexivity|]. rewrite <- IHl. reflexivity.
  - rewrite map_app in He. simpl in He.
    pose proof (NoDup_app_remove_r _ _ He) as He'.
    assert (Hk : ~ In k (map fst entries)).
    { intros Hin. apply (NoDup_remove_2 (map fst entries) [] k); [exact He|].
      rewrite app_nil_r. exact Hin. }
    rewrite fold_left_app. simpl. rewrite IH by exact He'.
    unfold overlay at 2. rewrite filter_app. simpl.
    destruct (existsb (String.eqb k) (map fst l)) eqn:Hkl.
    + apply existsb_in in Hkl. simpl. rewrite app_nil_r.
      unfold overlay. rewrite usp_set_app_l by (rewrite keys_upd; exact Hkl).
      rewrite (filter_absent k (filter _ entries)).
      2:{ intros Hin. apply in_map_iff in Hin as (e & He1 & He2).
          apply filter_In in He2 as [He2 _]. apply Hk. apply in_map_iff. eauto. }
      rewrite usp_set_in by (rewrite keys_upd; assumption).
      f_equal. rewrite map_map. apply map_ext. intros (n, w). simpl.
      rewrite usp_get_snoc by exact Hk.
      destruct (String.eqb_spec n k) as [->|Hne].
      * rewrite usp_get_absent by exact Hk. rewrite String.eqb_refl. reflexivity.
      * destruct (usp_get n entries); [reflexivity|].
        destruct (String.eqb_spec k n) as [->|_]; [contradiction | reflexivity].
    + assert (Hkl' : ~ In k (map fst l)).
      { intros Hin. apply existsb_in in Hin. congruence. }
      simpl. rewrite usp_set_absent.
      2:{ intros Hin. apply overlay_keys in Hin as [Hin|Hin]; contradiction. }
      unfold overlay. rewrite <- app_assoc. f_equal. apply map_ext_in.
      intros (n, w) Hp. simpl. rewrite usp_get_snoc by exact Hk.
      destruct (usp_get n entries); [reflexivity|].
      destruct (String.eqb_spec k n) as [->|_]; [|reflexivity].
      exfalso. apply Hkl'. apply in_map_iff. exists (n, w). auto.
Qed.
Fixpoint nodupb (l : list string) : bool :=
  match l with
  | [] => true
  | x :: l' => negb (existsb (String.eqb x) l') && nodupb l'
  end.

Lemma nodupb_spec l : nodupb l = true -> NoDup l.
Proof.
  induction l as [|x l IH]; simpl; intros H; [constructor|].
  apply andb_true_iff in H as [H1 H2]. apply negb_true_iff in H1.
  constructor; [|exact (IH H2)]. intros Hin. apply existsb_in in Hin. congruence.
Qed.

Lemma fold_left_map_values (f : prim -> string) (entries : list (string * prim)) (acc : params) :
  fold_left (fun acc kv => usp_set (fst kv) (f (snd kv)) acc) entries acc =
  fold_left (fun acc kv => usp_set (fst kv) (snd kv) acc)
            (map (fun kv => (fst kv, f (snd kv))) entries) acc.
Proof. revert acc. induction entries as [|kv entries IH]; intros acc; simpl; auto. Qed.

(** [RestletClient.call] with [params] (distinct names, as the own
    properties of an object are): the URL is the RESTlet base URL, [?]
    and a query string that parses back to [script] and [deploy], in this
    order, each taking the value of a parameter of the same name when
    [params] has one, followed by the other parameters in order, all
    values through [String(value)]. *)
Theorem restlet_url_query (accountId : string) (script deploy : prim)
    (entries : list (string * prim)) :
  NoDup (map fst entries) ->
  let sp := map (fun kv => (fst kv, String_ (snd kv))) entries in
  let P := ("script"%string, match usp_get "script" sp with Some v => v | None => String_ script end)
           :: ("deploy"%string, match usp_get "deploy" sp with Some v => v | None => String_ deploy end)
           :: filter (fun e => negb (String.eqb (fst e) "script") && negb (String.eqb (fst e) "deploy"))
                     sp in
  restlet_url accountId script deploy (Some entries) =
    (Account.restlet_baseUrl accountId ++ "?" ++ serialize P)%string /\
  parse_query (serialize P) = Some P.
Proof.
  intros Hnd sp P. split; [|apply serialize_roundtrip].
  unfold restlet_url, restlet_params. f_equal. f_equal. f_equal.
  rewrite fold_left_map_values. fold sp.
  rewrite fold_usp_set.
  - unfold overlay, P. simpl.
    rewrite (filter_ext
      (fun e : string * string =>
         negb ((fst e =? "script")%string || ((fst e =? "deploy")%string || false)))
      (fun e : string * string =>
         negb (fst e =? "script")%string && negb (fst e =? "deploy")%string)).
    + reflexivity.
    + intros e. rewrite orb_false_r, negb_orb. reflexivity.
  - apply nodupb_spec. reflexivity.
  - unfold sp. rewrite map_map. exact Hnd.
Qed.

(** The parameters [RecordClient.list] sets before [options.query]. *)
Definition base_list_params (options : RecordListOptions) : params :=
  ((match l_limit options with
    | Some n => [("limit"%string, Transport.string_of_Z n)] | None => [] end)
   ++ (match l_offset options with
       | Some n => [("offset"%string, Transport.string_of_Z n)] | None => [] end)
   ++ (match l_fields options with
       | Some ((_ :: _) as fs) => [("fields"%string, QueryBuilder.join ","%string fs)]
       | _ => [] end)
   ++ (match l_expandSubResources options with
       | Some true => [("expandSubResources"%string, "true"%string)] | _ => [] end))%list.

Lemma list_params_base options :
  list_params options =
  match l_query options with
  | Some q => fold_left (fun acc kv => usp_set (fst kv) (snd kv) acc) q (base_list_params options)
  | None => base_list_params options
  end.
Proof.
  destruct options as [lim off fl ex q]. unfold list_params, base_list_params. simpl.
  destruct lim, off, fl as [[|f fs]|], ex as [[|]|]; reflexivity.
Qed.

Lemma base_list_params_nodup options : NoDup (map fst (base_list_params options)).
Proof.
  apply nodupb_spec. destruct options as [lim off fl ex q]. unfold base_list_params. simpl.
  destruct lim, off, fl as [[|f fs]|], ex as [[|]|]; reflexivity.
Qed.

(** [RecordClient.list(recordType, options)] requests
    [baseUrl/recordType], with [?] and a query string only when some
    parameter is set. The query string parses back to [limit], [offset],
    [fields] (joined with commas, when non-empty) and
    [expandSubResources=true] (when [true]), each set only when the
    option is, in this order; an entry of [options.query] (distinct
    names) with one of these names replaces its value in place, and the
    other entries follow in order. *)
Theorem record_list_url (accountId recordType : string) (options : RecordListOptions) :
  (forall q, l_query options = Some q -> NoDup (map fst q)) ->
  let B := base_list_params options in
  let P := match l_query options with Some q => overlay q B | None => B end in
  list_url accountId recordType options =
    (Account.record_baseUrl accountId ++ "/" ++ recordType
     ++ match P with [] => "" | _ => "?" ++ serialize P end)%string /\
  parse_query (serialize P) = Some P.
Proof.
  intros Hq B P. split; [|apply serialize_roundtrip].
  assert (HP : list_params options = P).
  { rewrite list_params_base. unfold P, B.
    destruct (l_query options) as [q|] eqn:Hl; [|reflexivity].
    apply fold_usp_set; [apply base_list_params_nodup | exact (Hq q eq_refl)]. }
  unfold list_url. rewrite HP, serialize_empty. destruct P; reflexivity.
Qed.

(** Witness of [restlet_url_query]: [params] overriding [deploy] and
    adding [limit]. *)
Lemma restlet_url_query_witness :
  restlet_url "TSTDRV_1" (PNum 42) (PNum 1)
    (Some [("deploy"%string, PNum 2); ("limit"%string, PNum 10)]) =
    (Account.restlet_baseUrl "TSTDRV_1" ++ "?"
     ++ serialize [("script"%string, "42"%string); ("deploy"%string, "2"%string);
                   ("limit"%string, "10"%string)])%string /\
  parse_query (serialize [("script"%string, "42"%string); ("deploy"%string, "2"%string);
                          ("limit"%string, "10"%string)]) =
    Some [("script"%string, "42"%string); ("deploy"%string, "2"%string);
          ("limit"%string, "10"%string)].
Proof.
  apply (restlet_url_query "TSTDRV_1" (PNum 42) (PNum 1)
           [("deploy"%string, PNum 2); ("limit"%string, PNum 10)]).
  apply nodupb_spec. reflexivity.
Defined.

(** Witness of [record_list_url]: a limit, fields, and a query that
    overrides the limit and adds [q]. *)
Lemma record_list_url_witness :
  let options := {| l_limit := Some 10%Z; l_offset := None; l_fields := Some ["id"%string; "x"%string];
                    l_expandSubResources := Some false;
                    l_query := Some [("q"%string, "a b"%string); ("limit"%string, "5"%string)] |} in
  list_url "123" "customer" options =
    (Account.record_baseUrl "123" ++ "/" ++ "customer"
     ++ "?" ++ serialize [("limit"%string, "5"%string); ("fields"%string, "id,x"%string);
                          ("q"%string, "a b"%string)])%string /\
  parse_query (serialize [("limit"%string, "5"%string); ("fields"%string, "id,x"%string);
                          ("q"%string, "a b"%string)]) =
    Some [("limit"%string, "5"%string); ("fields"%string, "id,x"%string); ("q"%string, "a b"%string)].
Proof.
  intros options.
  apply (record_list_url "123" "customer" options).
  intros q Hq. injection Hq as <-. apply nodupb_spec. reflexivity.
Defined.

End SearchParamsExtra.
